(** * KDTree: a k-dimensional tree for exact nearest-neighbour queries

    Shallow embedding of [src/KDTree/KDTree.C] (construction by in-place
    median partitioning, branch-and-bound search) and of the brute-force
    reference of [applications/testKDTree/testKDTree.C].

    Modelling conventions.
    - [label] (OpenFOAM's signed integer) is [Z]; index arithmetic is the
      mathematical one (every value the code computes is bounded by twice
      the number of points, so no wrap-around is modelled).  Division and
      remainder are the truncating [Z.quot] and [Z.rem] of C++.
    - [scalar] is modelled twice.  The first model computes with exact
      integers [Z] (no rounding, no NaN): it serves for what depends on
      the indices and on the order of the keys only, that is the
      construction, its errors and termination, and the order in which
      the search tests its candidates.  Module [FP] repeats the
      translation over an interface of the scalar operations, of which
      the machine's doubles are an instance; what depends on the values
      of the distances, that is the result of a search, is stated there,
      for finite coordinates, from the laws [ScalarLaws] of arithmetic
      rounding to nearest.
    - [List<T>] is [list T]; [operator[]] is the fallible [get]/[set]:
      an access outside the list is the error [OutOfRange].
    - [FatalErrorInFunction ... abort(FatalError)] is the error
      [DimensionMismatch]; an integer remainder by zero is [ModuloByZero].
    - The [while] loop of [partitionIndices] and the recursion of
      [buildTree] run on fuel.  [OutOfFuel] does not occur: never in
      [partitionIndices], whose fuel is the size of the range, and not in
      the [buildTree] of the constructor, whose fuel exceeds the number of
      points. *)

From Stdlib Require Import ZArith Lia Floats.PrimFloat.
From Stdlib Require Floats.SpecFloat Floats.FloatOps.
From stdpp Require Import base tactics option list list_numbers sorting.

Local Open Scope Z_scope.

(** ** Results of fallible computations *)

Inductive error : Set :=
  | DimensionMismatch
  | ModuloByZero
  | OutOfRange
  | OutOfFuel.

Inductive result (A : Type) : Type :=
  | Ok (a : A)
  | Err (e : error).
Global Arguments Ok {A} a.
Global Arguments Err {A} e.

#[global] Instance result_ret : MRet result := λ A a, Ok a.
#[global] Instance result_bind : MBind result := λ A B f m,
  match m with
  | Ok a => f a
  | Err e => Err e
  end.

(** ** Scalars, labels and lists used as arrays *)

Abbreviation label := Z (only parsing).
Abbreviation scalar := Z (only parsing).
Abbreviation scalarField := (list Z) (only parsing).

(** [l[i]], read. *)
Definition get {A} (l : list A) (i : label) : result A :=
  if decide (0 ≤ i) then
    match l !! Z.to_nat i with
    | Some x => Ok x
    | None => Err OutOfRange
    end
  else Err OutOfRange.

(** [l[i] = x], write. *)
Definition set {A} (l : list A) (i : label) (x : A) : result (list A) :=
  if decide (0 ≤ i ∧ i < Z.of_nat (length l)) then Ok (<[Z.to_nat i := x]> l)
  else Err OutOfRange.

(** [std::swap(l[i], l[j])]. *)
Definition swap {A} (l : list A) (i j : label) : result (list A) :=
  a ← get l i;
  b ← get l j;
  l' ← set l i b;
  set l' j a.

(** [for (label i = lo; i < hi; ++i) body], threading the state [s]. *)
Fixpoint forLoop_from {St} (n : nat) (i : label)
    (body : label → St → result St) (s : St) : result St :=
  match n with
  | O => Ok s
  | S n' => s' ← body i s; forLoop_from n' (i + 1) body s'
  end.

Definition forLoop {St} (lo hi : label)
    (body : label → St → result St) (s : St) : result St :=
  forLoop_from (Z.to_nat (hi - lo)) lo body s.

(** ** Nodes

    Modelled from the spec: the declaration of [KDTree::Node] (in KDTree.H)
    is not part of the sources; its fields are the ones KDTree.C reads and
    writes.  A value of type [Node] stands for an [autoPtr<Node>]: [null]
    is the empty pointer, [node] an owned node with its five fields.  The
    leaf constructor [Node(leafInds)] fills [leafIndices] only (KDTree.C
    never reads the other fields of a leaf; the model gives them [-1] and
    [null]), the internal constructor [Node(idx, axis)] leaves
    [leafIndices] empty and both children [null]. *)

Inductive Node : Type :=
  | null
  | node (leafIndices : list label) (pointIndex axis : label)
         (left right : Node).

Definition valid (p : Node) : bool :=
  match p with
  | null => false
  | node _ _ _ _ _ => true
  end.

Definition leafNode (leafInds : list label) : Node :=
  node leafInds (-1) (-1) null null.

Definition internalNode (idx axis : label) (l r : Node) : Node :=
  node [] idx axis l r.

Record KDTree : Type := mkKDTree {
  root_ : Node;
  points_ : list scalarField;
  k_ : label
}.

Section KDTree.

(** [leafSize_] is a constant of KDTree.H and [GREAT] one of OpenFOAM;
    neither value is in the sources, so both are parameters. *)
Variable leafSize_ : label.
Variable GREAT : scalar.

Section Methods.

Variable points_ : list scalarField.
Variable k_ : label.

(** [points_[indices[i]][axis]] *)
Definition axisValue (indices : list label) (i axis : label)
    : result scalar :=
  idx ← get indices i;
  p ← get points_ idx;
  get p axis.

(** Body of the inner [for] loop of [partitionIndices]; the state is
    [(indices, storeIdx)]. *)
Definition partitionBody (axis : label) (pivotVal : scalar) (i : label)
    (st : list label * label) : result (list label * label) :=
  let '(indices, storeIdx) := st in
  v ← axisValue indices i axis;
  if decide (v < pivotVal) then
    indices' ← swap indices i storeIdx;
    Ok (indices', storeIdx + 1)
  else Ok (indices, storeIdx).

(** One iteration of the [while] loop, up to the final position
    [storeIdx] of the pivot. *)
Definition partitionStep (indices : list label) (left right axis : label)
    : result (list label * label) :=
  let mid := Z.quot (left + right) 2 in
  pivotVal ← axisValue indices mid axis;
  indices ← swap indices mid right;
  '(indices, storeIdx) ←
    forLoop left right (partitionBody axis pivotVal) (indices, left);
  indices ← swap indices storeIdx right;
  Ok (indices, storeIdx).

Fixpoint partitionLoop (fuel : nat) (indices : list label)
    (left right axis k : label) : result (list label) :=
  if decide (left < right) then
    match fuel with
    | O => Err OutOfFuel
    | S fuel' =>
        '(indices, storeIdx) ← partitionStep indices left right axis;
        if decide (storeIdx = k) then Ok indices
        else if decide (k < storeIdx) then
          partitionLoop fuel' indices left (storeIdx - 1) axis k
        else
          partitionLoop fuel' indices (storeIdx + 1) right axis k
    end
  else Ok indices.

Definition partitionIndices (indices : list label)
    (start end_ axis k : label) : result (list label) :=
  let left := start in
  let right := end_ - 1 in
  partitionLoop (Z.to_nat (right - left)) indices left right axis k.

Fixpoint buildTree (fuel : nat) (indices : list label)
    (start end_ depth : label) : result (list label * Node) :=
  match fuel with
  | O => Err OutOfFuel
  | S fuel' =>
      let count := end_ - start in
      if decide (count ≤ 0) then Ok (indices, null)
      else if decide (count ≤ leafSize_) then
        leafInds ←
          forLoop 0 count
            (λ i leafInds, x ← get indices (start + i); set leafInds i x)
            (replicate (Z.to_nat count) 0);
        Ok (indices, leafNode leafInds)
      else if decide (k_ = 0) then Err ModuloByZero
      else
        let axis := Z.rem depth k_ in
        let midOffset := Z.quot count 2 in
        let midIndex := start + midOffset in
        indices ← partitionIndices indices start end_ axis midIndex;
        idx ← get indices midIndex;
        '(indices, l) ← buildTree fuel' indices start midIndex (depth + 1);
        '(indices, r) ←
          buildTree fuel' indices (midIndex + 1) end_ (depth + 1);
        Ok (indices, internalNode idx axis l r)
  end.

Definition distSqr (a b : scalarField) : result scalar :=
  forLoop 0 k_
    (λ d sum,
       x ← get a d;
       y ← get b d;
       let diff := x - y in
       Ok (sum + diff * diff))
    0.

(** The candidate test shared by the leaf scan and the split point:
    [d2 = distSqr(points_[idx], query); if (d2 < bestDistSqr) ...].
    The state is [(bestIndex, bestDistSqr)]. *)
Definition candidate (query : scalarField) (idx : label)
    (best : label * scalar) : result (label * scalar) :=
  p ← get points_ idx;
  d2 ← distSqr p query;
  if decide (d2 < best.2) then Ok (idx, d2) else Ok best.

(** [forAll(node->leafIndices, i)] *)
Fixpoint scanLeaf (query : scalarField) (leafIndices : list label)
    (best : label * scalar) : result (label * scalar) :=
  match leafIndices with
  | [] => Ok best
  | idx :: rest =>
      best' ← candidate query idx best;
      scanLeaf query rest best'
  end.

Fixpoint nearestSearch (n : Node) (query : scalarField)
    (best : label * scalar) : result (label * scalar) :=
  match n with
  | null => Ok best
  | node leafIndices pointIndex axis left_ right_ =>
      if decide (leafIndices ≠ []) then scanLeaf query leafIndices best
      else
        let idx := pointIndex in
        best ← candidate query idx best;
        let ax := axis in
        qa ← get query ax;
        p ← get points_ idx;
        pa ← get p ax;
        let diff := qa - pa in
        best ←
          (if decide (diff < 0) then
             if valid left_ then nearestSearch left_ query best else Ok best
           else
             if valid right_ then nearestSearch right_ query best
             else Ok best);
        if decide (diff < 0) then
          if valid right_ then
            if decide (diff * diff < best.2) then
              nearestSearch right_ query best
            else Ok best
          else Ok best
        else
          if valid left_ then
            if decide (diff * diff < best.2) then
              nearestSearch left_ query best
            else Ok best
          else Ok best
  end.

End Methods.

(** ** Public interface *)

(** [forAll(points_, i) if (points_[i].size() != k_) abort] *)
Fixpoint checkDimensions (points : list scalarField) (k : label)
    : result unit :=
  match points with
  | [] => Ok ()
  | p :: rest =>
      if decide (Z.of_nat (length p) ≠ k) then Err DimensionMismatch
      else checkDimensions rest k
  end.

(** The constructor [KDTree::KDTree(points)]. *)
Definition KDTree_new (points : list scalarField) : result KDTree :=
  let k :=
    match points with
    | [] => 0
    | p0 :: _ => Z.of_nat (length p0)
    end in
  match points with
  | [] => Ok (mkKDTree null points k)
  | _ :: _ =>
      _ ← checkDimensions points k;
      let indices := seqZ 0 (Z.of_nat (length points)) in
      '(_, root) ←
        buildTree points k (S (length indices)) indices
          0 (Z.of_nat (length indices)) 0;
      Ok (mkKDTree root points k)
  end.

Definition search (t : KDTree) (query : scalarField)
    : result (label * scalar) :=
  let bestIndex := -1 in
  let bestDistSqr := GREAT in
  nearestSearch (points_ t) (k_ t) (root_ t) query (bestIndex, bestDistSqr).

Definition nearest (t : KDTree) (query : scalarField) : result label :=
  if negb (valid (root_ t)) then Ok (-1)
  else if decide (Z.of_nat (length query) ≠ k_ t) then Err DimensionMismatch
  else best ← search t query; Ok best.1.

Definition nearestDistSqr (t : KDTree) (query : scalarField)
    : result scalar :=
  if negb (valid (root_ t)) then Ok GREAT
  else if decide (Z.of_nat (length query) ≠ k_ t) then Err DimensionMismatch
  else best ← search t query; Ok best.2.

(** ** The brute-force reference of the test application *)

Fixpoint bruteLoop (pts : list scalarField) (i : label) (q : scalarField)
    (st : label * scalar) : result (label * scalar) :=
  match pts with
  | [] => Ok st
  | p :: rest =>
      d2 ←
        forLoop 0 (Z.of_nat (length q))
          (λ d d2,
             x ← get p d;
             y ← get q d;
             let diff := x - y in
             Ok (d2 + diff * diff))
          0;
      bruteLoop rest (i + 1) q (if decide (d2 < st.2) then (i, d2) else st)
  end.

(** [bruteNearest(pts, q, bestD2)]: the pair of the returned index and of
    the distance written to [bestD2]. *)
Definition bruteNearest (pts : list scalarField) (q : scalarField)
    : result (label * scalar) :=
  bruteLoop pts 0 q (-1, GREAT).

End KDTree.

Global Arguments get : simpl never.
Global Arguments set : simpl never.
Global Arguments swap : simpl never.
Global Arguments forLoop : simpl never.
Global Arguments axisValue : simpl never.
Global Arguments partitionStep : simpl never.
Global Arguments partitionIndices : simpl never.
Global Arguments distSqr : simpl never.
Global Arguments candidate : simpl never.

(** * The same program over an interface of scalar operations

    The definitions above compute with exact integers.  That is enough
    for what the program does with indices and with the order of the
    keys, but not for the values of distances: the program's [scalar] is
    an IEEE-754 double, with rounding, overflow to infinity, signed zeros
    and NaN.  Module [FP] is the same translation of KDTree.C and of
    [bruteNearest], line for line, in which the four things the code
    does with scalars are the operations of a type class:
    the literal [0], [+], [-], [*] and the comparison [<].

    Three instances are given: [FP.double], the binary64 numbers of the
    machine (primitive floats), on which the definitions run as the
    program does; [FP.exact], the integers of the first model; and
    [FP.fixedPoint], a fixed-point arithmetic with rounded products. *)

Module FP.

Class Scalar (F : Type) : Type := {
  zero : F;
  add : F → F → F;
  sub : F → F → F;
  mul : F → F → F;
  ltb : F → F → bool
}.

Record KDTree (F : Type) : Type := mkKDTree {
  root_ : Node;
  points_ : list (list F);
  k_ : label
}.
Global Arguments mkKDTree {F} root_ points_ k_.
Global Arguments root_ {F} k.
Global Arguments points_ {F} k.
Global Arguments k_ {F} k.

Section KDTree.

Context {F : Type} `{Scalar F}.

Variable leafSize_ : label.
Variable GREAT : F.

Section Methods.

Variable points_ : list (list F).
Variable k_ : label.

(** [points_[indices[i]][axis]] *)
Definition axisValue (indices : list label) (i axis : label) : result F :=
  idx ← get indices i;
  p ← get points_ idx;
  get p axis.

Definition partitionBody (axis : label) (pivotVal : F) (i : label)
    (st : list label * label) : result (list label * label) :=
  let '(indices, storeIdx) := st in
  v ← axisValue indices i axis;
  if ltb v pivotVal then
    indices' ← swap indices i storeIdx;
    Ok (indices', storeIdx + 1)
  else Ok (indices, storeIdx).

Definition partitionStep (indices : list label) (left right axis : label)
    : result (list label * label) :=
  let mid := Z.quot (left + right) 2 in
  pivotVal ← axisValue indices mid axis;
  indices ← swap indices mid right;
  '(indices, storeIdx) ←
    forLoop left right (partitionBody axis pivotVal) (indices, left);
  indices ← swap indices storeIdx right;
  Ok (indices, storeIdx).

Fixpoint partitionLoop (fuel : nat) (indices : list label)
    (left right axis k : label) : result (list label) :=
  if decide (left < right) then
    match fuel with
    | O => Err OutOfFuel
    | S fuel' =>
        '(indices, storeIdx) ← partitionStep indices left right axis;
        if decide (storeIdx = k) then Ok indices
        else if decide (k < storeIdx) then
          partitionLoop fuel' indices left (storeIdx - 1) axis k
        else
          partitionLoop fuel' indices (storeIdx + 1) right axis k
    end
  else Ok indices.

Definition partitionIndices (indices : list label)
    (start end_ axis k : label) : result (list label) :=
  let left := start in
  let right := end_ - 1 in
  partitionLoop (Z.to_nat (right - left)) indices left right axis k.

Fixpoint buildTree (fuel : nat) (indices : list label)
    (start end_ depth : label) : result (list label * Node) :=
  match fuel with
  | O => Err OutOfFuel
  | S fuel' =>
      let count := end_ - start in
      if decide (count ≤ 0) then Ok (indices, null)
      else if decide (count ≤ leafSize_) then
        leafInds ←
          forLoop 0 count
            (λ i leafInds, x ← get indices (start + i); set leafInds i x)
            (replicate (Z.to_nat count) 0);
        Ok (indices, leafNode leafInds)
      else if decide (k_ = 0) then Err ModuloByZero
      else
        let axis := Z.rem depth k_ in
        let midOffset := Z.quot count 2 in
        let midIndex := start + midOffset in
        indices ← partitionIndices indices start end_ axis midIndex;
        idx ← get indices midIndex;
        '(indices, l) ← buildTree fuel' indices start midIndex (depth + 1);
        '(indices, r) ←
          buildTree fuel' indices (midIndex + 1) end_ (depth + 1);
        Ok (indices, internalNode idx axis l r)
  end.

(** [sum += diff*diff], from [sum = 0]. *)
Definition distSqr (a b : list F) : result F :=
  forLoop 0 k_
    (λ d sum,
       x ← get a d;
       y ← get b d;
       let diff := sub x y in
       Ok (add sum (mul diff diff)))
    zero.

Definition candidate (query : list F) (idx : label) (best : label * F)
    : result (label * F) :=
  p ← get points_ idx;
  d2 ← distSqr p query;
  if ltb d2 best.2 then Ok (idx, d2) else Ok best.

Fixpoint scanLeaf (query : list F) (leafIndices : list label)
    (best : label * F) : result (label * F) :=
  match leafIndices with
  | [] => Ok best
  | idx :: rest =>
      best' ← candidate query idx best;
      scanLeaf query rest best'
  end.

Fixpoint nearestSearch (n : Node) (query : list F) (best : label * F)
    : result (label * F) :=
  match n with
  | null => Ok best
  | node leafIndices pointIndex axis left_ right_ =>
      if decide (leafIndices ≠ []) then scanLeaf query leafIndices best
      else
        let idx := pointIndex in
        best ← candidate query idx best;
        let ax := axis in
        qa ← get query ax;
        p ← get points_ idx;
        pa ← get p ax;
        let diff := sub qa pa in
        best ←
          (if ltb diff zero then
             if valid left_ then nearestSearch left_ query best else Ok best
           else
             if valid right_ then nearestSearch right_ query best
             else Ok best);
        if ltb diff zero then
          if valid right_ then
            if ltb (mul diff diff) best.2 then
              nearestSearch right_ query best
            else Ok best
          else Ok best
        else
          if valid left_ then
            if ltb (mul diff diff) best.2 then
              nearestSearch left_ query best
            else Ok best
          else Ok best
  end.

End Methods.

Fixpoint checkDimensions (points : list (list F)) (k : label)
    : result unit :=
  match points with
  | [] => Ok ()
  | p :: rest =>
      if decide (Z.of_nat (length p) ≠ k) then Err DimensionMismatch
      else checkDimensions rest k
  end.

Definition KDTree_new (points : list (list F)) : result (KDTree F) :=
  let k :=
    match points with
    | [] => 0
    | p0 :: _ => Z.of_nat (length p0)
    end in
  match points with
  | [] => Ok (mkKDTree null points k)
  | _ :: _ =>
      _ ← checkDimensions points k;
      let indices := seqZ 0 (Z.of_nat (length points)) in
      '(_, root) ←
        buildTree points k (S (length indices)) indices
          0 (Z.of_nat (length indices)) 0;
      Ok (mkKDTree root points k)
  end.

Definition search (t : KDTree F) (query : list F) : result (label * F) :=
  let bestIndex := -1 in
  let bestDistSqr := GREAT in
  nearestSearch (points_ t) (k_ t) (root_ t) query (bestIndex, bestDistSqr).

Definition nearest (t : KDTree F) (query : list F) : result label :=
  if negb (valid (root_ t)) then Ok (-1)
  else if decide (Z.of_nat (length query) ≠ k_ t) then Err DimensionMismatch
  else best ← search t query; Ok best.1.

Definition nearestDistSqr (t : KDTree F) (query : list F) : result F :=
  if negb (valid (root_ t)) then Ok GREAT
  else if decide (Z.of_nat (length query) ≠ k_ t) then Err DimensionMismatch
  else best ← search t query; Ok best.2.

Fixpoint bruteLoop (pts : list (list F)) (i : label) (q : list F)
    (st : label * F) : result (label * F) :=
  match pts with
  | [] => Ok st
  | p :: rest =>
      d2 ←
        forLoop 0 (Z.of_nat (length q))
          (λ d d2,
             x ← get p d;
             y ← get q d;
             let diff := sub x y in
             Ok (add d2 (mul diff diff)))
          zero;
      bruteLoop rest (i + 1) q (if ltb d2 st.2 then (i, d2) else st)
  end.

Definition bruteNearest (pts : list (list F)) (q : list F)
    : result (label * F) :=
  bruteLoop pts 0 q (-1, GREAT).

End KDTree.

(** The doubles of the machine. *)
#[global] Instance double : Scalar float := {|
  zero := 0%float;
  add := PrimFloat.add;
  sub := PrimFloat.sub;
  mul := PrimFloat.mul;
  ltb := PrimFloat.ltb
|}.

(** Exact integers. *)
#[global] Instance exact : Scalar Z := {|
  zero := 0;
  add := Z.add;
  sub := Z.sub;
  mul := Z.mul;
  ltb := Z.ltb
|}.

(** Binary fixed-point numbers with ten fractional bits, [raw / 1024]:
    sums and differences are exact, a product is rounded to the nearest
    multiple of [1/1024], so that the square of a small number is [0].
    An arithmetic with rounding on which the laws of the search can be
    proved. *)
Record fixed : Set := Fixed { raw : Z }.

#[global] Instance fixedPoint : Scalar fixed := {|
  zero := Fixed 0;
  add x y := Fixed (raw x + raw y);
  sub x y := Fixed (raw x - raw y);
  mul x y := Fixed ((raw x * raw y + 512) `div` 1024);
  ltb x y := raw x <? raw y
|}.

End FP.

Global Arguments FP.axisValue : simpl never.
Global Arguments FP.partitionStep : simpl never.
Global Arguments FP.partitionIndices : simpl never.
Global Arguments FP.distSqr : simpl never.
Global Arguments FP.candidate : simpl never.

(** * Specification vocabulary *)

(** [fails_in E m]: when [m] is an error, it is one of [E]. *)
Definition fails_in {A} (E : error → Prop) (m : result A) : Prop :=
  ∀ e, m = Err e → E e.

(** [rangePerm a b l l']: [l'] is a permutation of [l] that leaves every
    position outside [[a,b)] unchanged. *)
Definition rangePerm {A} (a b : Z) (l l' : list A) : Prop :=
  l' ≡ₚ l ∧ ∀ i : nat, Z.of_nat i < a ∨ b ≤ Z.of_nat i → l' !! i = l !! i.

(** The elements of the range [[a,b)]. *)
Definition slice {A} (a b : Z) (l : list A) : list A :=
  take (Z.to_nat (b - a)) (drop (Z.to_nat a) l).

(** [rangeAll P l a b]: every position of [[a,b)] of [l] holds an element
    that satisfies [P]. *)
Definition rangeAll {A} (P : A → Prop) (l : list A) (a b : Z) : Prop :=
  ∀ i, a ≤ i < b → ∃ x, l !! Z.to_nat i = Some x ∧ P x.

Section Keys.

Variable points_ : list scalarField.
Variable axis : label.

(** [points_[idx][axis]] *)
Definition pointKey (idx : label) : result scalar :=
  p ← get points_ idx;
  get p axis.

Definition hasKey (idx : label) : Prop := ∃ v, pointKey idx = Ok v.

(** The key of a point index, for the indices that have one. *)
Definition key (idx : label) : scalar :=
  match pointKey idx with
  | Ok v => v
  | Err _ => 0
  end.

(** The key of the element at position [i] of an index array. *)
Definition keyAt (l : list label) (i : Z) : scalar :=
  match l !! Z.to_nat i with
  | Some idx => key idx
  | None => 0
  end.

(** Every position of [[a,b)] holds a point index that has a key. *)
Definition validRange (l : list label) (a b : Z) : Prop :=
  rangeAll hasKey l a b.

(** [splitAt start end_ l m]: inside [[start,end_)], every key before
    position [m] is at most every key from [m] on. *)
Definition splitAt (start end_ : Z) (l : list label) (m : Z) : Prop :=
  ∀ i j, start ≤ i < m → m ≤ j < end_ → keyAt l i ≤ keyAt l j.


End Keys.

(** The indices a tree stores, as [nearestSearch] reads them: the members
    of a leaf, or the split point followed by the two subtrees. *)
Fixpoint treeIndices (t : Node) : list label :=
  match t with
  | null => []
  | node leafIndices pointIndex _ l r =>
      if decide (leafIndices ≠ []) then leafIndices
      else pointIndex :: treeIndices l ++ treeIndices r
  end.

Section TreeInvariant.

Variable leafSize_ : label.
Variable points_ : list scalarField.
Variable k_ : label.

Definition validIndex (idx : label) : Prop :=
  0 ≤ idx < Z.of_nat (length points_).

(** The invariant of the tree under a node built at depth [depth]. *)
Fixpoint treeInv (depth : label) (t : Node) : Prop :=
  match t with
  | null => True
  | node leafIndices pointIndex axis l r =>
      if decide (leafIndices ≠ []) then
        Z.of_nat (length leafIndices) ≤ leafSize_
      else
        0 ≤ axis < k_ ∧ axis = Z.rem depth k_ ∧
        (∀ i, i ∈ treeIndices l →
           key points_ axis i ≤ key points_ axis pointIndex) ∧
        (∀ i, i ∈ treeIndices r →
           key points_ axis pointIndex ≤ key points_ axis i) ∧
        treeInv (depth + 1) l ∧ treeInv (depth + 1) r
  end.

End TreeInvariant.

(** The squared Euclidean distance of two vectors of the same length. *)
Fixpoint sqDist (a b : scalarField) : scalar :=
  match a, b with
  | x :: a', y :: b' => (x - y) * (x - y) + sqDist a' b'
  | _, _ => 0
  end.

Section Candidates.

Variable points_ : list scalarField.
Variable k_ : label.
Variable query : scalarField.

(** The point of an index, and its distance to the query. *)
Definition pointAt (idx : label) : scalarField :=
  match points_ !! Z.to_nat idx with
  | Some p => p
  | None => []
  end.

Definition dist (idx : label) : scalar := sqDist (pointAt idx) query.

(** [improved S b b']: the search state [b'] is what the state [b]
    becomes once the candidates [S] are accounted for: the best distance
    is the minimum of the one of [b] and of the distances of [S], and the
    best index changes only to a candidate strictly closer than [b]. *)
Definition improved (S : list label) (b b' : label * scalar) : Prop :=
  b'.2 ≤ b.2 ∧
  (∀ i, i ∈ S → b'.2 ≤ dist i) ∧
  (b' = b ∨ (b'.2 < b.2 ∧ b'.1 ∈ S ∧ dist b'.1 = b'.2)).

(** [distSqr(points_[idx], query)], as the search computes it for a
    candidate. *)
Definition candidateDist (idx : label) : result scalar :=
  p ← get points_ idx;
  distSqr k_ p query.

(** [nearestSearch], returning besides the final state the candidates it
    has tested, in the order of the tests. *)
Fixpoint nearestSearchTrace (n : Node) (best : label * scalar)
    : result ((label * scalar) * list label) :=
  match n with
  | null => Ok (best, [])
  | node leafIndices pointIndex axis left_ right_ =>
      if decide (leafIndices ≠ []) then
        best ← scanLeaf points_ k_ query leafIndices best;
        Ok (best, leafIndices)
      else
        let idx := pointIndex in
        best ← candidate points_ k_ query idx best;
        let ax := axis in
        qa ← get query ax;
        p ← get points_ idx;
        pa ← get p ax;
        let diff := qa - pa in
        '(best, near) ←
          (if decide (diff < 0) then
             if valid left_ then nearestSearchTrace left_ best
             else Ok (best, [])
           else
             if valid right_ then nearestSearchTrace right_ best
             else Ok (best, []));
        '(best, far) ←
          (if decide (diff < 0) then
             if valid right_ then
               if decide (diff * diff < best.2) then
                 nearestSearchTrace right_ best
               else Ok (best, [])
             else Ok (best, [])
           else
             if valid left_ then
               if decide (diff * diff < best.2) then
                 nearestSearchTrace left_ best
               else Ok (best, [])
             else Ok (best, []));
        Ok (best, idx :: near ++ far)
  end.

(** [first_best T b b']: scanning the candidates [T] from the state [b]
    either keeps [b], no candidate being strictly closer, or ends on the
    first candidate of [T] at the least distance. *)
Definition first_best (T : list label) (b b' : label * scalar) : Prop :=
  (b' = b ∧ ∀ c, c ∈ T → ∃ d, candidateDist c = Ok d ∧ b.2 ≤ d) ∨
  (∃ T1 T2,
     T = T1 ++ b'.1 :: T2 ∧
     candidateDist b'.1 = Ok b'.2 ∧ b'.2 < b.2 ∧
     (∀ c, c ∈ T1 → ∃ d, candidateDist c = Ok d ∧ b'.2 < d) ∧
     (∀ c, c ∈ T2 → ∃ d, candidateDist c = Ok d ∧ b'.2 ≤ d)).

End Candidates.

(** The number of nodes on the longest path from a node down to a leaf
    or to a split point without children: the depth the recursions of
    [buildTree] and [nearestSearch] reach below it. *)
Fixpoint height (t : Node) : Z :=
  match t with
  | null => 0
  | node _ _ _ l r => 1 + Z.max (height l) (height r)
  end.

(** The dimension [k] the constructor takes from the first point. *)
Definition dimension (points : list scalarField) : label :=
  match points with
  | [] => 0
  | p0 :: _ => Z.of_nat (length p0)
  end.

(** All points have the dimension of the first one. *)
Definition consistent (points : list scalarField) : Prop :=
  Forall (λ p, Z.of_nat (length p) = dimension points) points.

(** ** Vocabulary of the scalar interface *)

(** What the search needs of the scalar operations.  For the doubles
    [is_number] is "not NaN", [is_finite] is "neither NaN nor infinite"
    and [rank] is the position of a number in the order of the doubles,
    the two zeros sharing position [0] and [rank (-x) = - rank x].  The
    laws are those of correctly rounded arithmetic: a difference of
    finite numbers is a number, rounded the same way in both directions
    and monotone in its first operand; a square is a number, not
    negative, and monotone in the magnitude of its operand; a sum of two
    numbers that are not negative is a number, not below either.
    Nothing is asked of a product of two different numbers, of a sum
    with a negative term or of an operation on NaN.  Exact arithmetic
    satisfies the laws too. *)
Class ScalarLaws (F : Type) `{FP.Scalar F} : Type := {
  rank : F → Z;
  is_number : F → Prop;
  is_finite : F → Prop;
  finite_number x : is_finite x → is_number x;
  ltb_rank x y :
    is_number x → is_number y →
    FP.ltb x y = bool_decide (rank x < rank y);
  zero_number : is_number FP.zero;
  zero_rank : rank FP.zero = 0;
  sub_number x y : is_finite x → is_finite y → is_number (FP.sub x y);
  sub_mono x y z :
    is_finite x → is_finite y → is_finite z →
    rank y ≤ rank z → rank (FP.sub y x) ≤ rank (FP.sub z x);
  sub_opp x y :
    is_finite x → is_finite y → rank (FP.sub y x) = - rank (FP.sub x y);
  sq_number a : is_number a → is_number (FP.mul a a);
  sq_nonneg a : is_number a → 0 ≤ rank (FP.mul a a);
  sq_mono a b :
    is_number a → is_number b →
    0 ≤ rank a → rank a ≤ rank b →
    rank (FP.mul a a) ≤ rank (FP.mul b b);
  sq_opp a b :
    is_number a → is_number b →
    rank b = - rank a → rank (FP.mul b b) = rank (FP.mul a a);
  add_number a b :
    is_number a → is_number b → 0 ≤ rank a → 0 ≤ rank b →
    is_number (FP.add a b);
  add_le_l a b :
    is_number a → is_number b → 0 ≤ rank a → 0 ≤ rank b →
    rank a ≤ rank (FP.add a b);
  add_le_r a b :
    is_number a → is_number b → 0 ≤ rank a → 0 ≤ rank b →
    rank b ≤ rank (FP.add a b)
}.

Section Scalars.

Context {F : Type} `{ScalarLaws F}.

(** The keys of the points, as positions in the order. *)
Definition ranks (points : list (list F)) : list (list Z) :=
  map (map rank) points.

Definition finitePoints (points : list (list F)) : Prop :=
  Forall (Forall is_finite) points.

(** The value [distSqr] accumulates over two vectors of the same length:
    the squares of the differences, added from the left to [0]. *)
Definition sumSq (a b : list F) : F :=
  fold_left
    (λ sum xy, FP.add sum (FP.mul (FP.sub xy.1 xy.2) (FP.sub xy.1 xy.2)))
    (zip a b) FP.zero.

(** Two numbers neither of which is less than the other. *)
Definition sameValue (x y : F) : Prop :=
  FP.ltb x y = false ∧ FP.ltb y x = false.

Variable points_ : list (list F).
Variable query : list F.

Definition fpointAt (idx : label) : list F :=
  match points_ !! Z.to_nat idx with
  | Some p => p
  | None => []
  end.

Definition fdist (idx : label) : F := sumSq (fpointAt idx) query.

(** [improved], for scalars that are compared through [rank]. *)
Definition fimproved (S : list label) (b b' : label * F) : Prop :=
  is_number b'.2 ∧
  rank b'.2 ≤ rank b.2 ∧
  (∀ i, i ∈ S → rank b'.2 ≤ rank (fdist i)) ∧
  (b' = b ∨ (rank b'.2 < rank b.2 ∧ b'.1 ∈ S ∧ fdist b'.1 = b'.2)).

End Scalars.

(** ** The laws on the doubles

    The position of a double in the order.  A finite double is
    [m * 2^e] with [e >= -1074] and, unless [e = -1074], a mantissa [m]
    of 53 bits: the positive doubles in increasing order are numbered
    [(e + 1074) * 2^52 + m]; the infinities lie beyond. *)
Definition double_rank (x : float) : Z :=
  match FloatOps.Prim2SF x with
  | SpecFloat.S754_zero _ => 0
  | SpecFloat.S754_infinity s => if s then - 2 ^ 63 else 2 ^ 63
  | SpecFloat.S754_nan => 0
  | SpecFloat.S754_finite s m e =>
      let v := (e + 1074) * 2 ^ 52 + Z.pos m in if s then - v else v
  end.

Definition double_is_number (x : float) : bool := negb (PrimFloat.is_nan x).

Definition double_is_finite (x : float) : bool :=
  negb (PrimFloat.is_nan x) && negb (PrimFloat.is_infinity x).

Section Sampled.

Context {F : Type} `{FP.Scalar F}.

Variable rk : F → Z.
Variable num fin : F → bool.

Definition all2 (S : list F) (P : F → F → bool) : bool :=
  forallb (λ x, forallb (P x) S) S.

(** The laws of [ScalarLaws], decided on the values of a list. *)
Definition lawsOn (S : list F) : bool :=
  let sq a := FP.mul a a in
  forallb (λ x, implb (fin x) (num x)) S
  && all2 S (λ x y,
       implb (num x && num y) (Bool.eqb (FP.ltb x y) (rk x <? rk y)))
  && num FP.zero && (rk FP.zero =? 0)
  && all2 S (λ x y,
       implb (fin x && fin y)
         (num (FP.sub x y) && (rk (FP.sub y x) =? - rk (FP.sub x y))))
  && forallb (λ x, all2 S (λ y z,
       implb (fin x && fin y && fin z && (rk y <=? rk z))
         (rk (FP.sub y x) <=? rk (FP.sub z x)))) S
  && forallb (λ a, implb (num a) (num (sq a) && (0 <=? rk (sq a)))) S
  && all2 S (λ a b,
       implb (num a && num b && (0 <=? rk a) && (rk a <=? rk b))
         (rk (sq a) <=? rk (sq b)))
  && all2 S (λ a b,
       implb (num a && num b && (rk b =? - rk a))
         (rk (sq b) =? rk (sq a)))
  && all2 S (λ a b,
       implb (num a && num b && (0 <=? rk a) && (0 <=? rk b))
         (num (FP.add a b) && (rk a <=? rk (FP.add a b))
          && (rk b <=? rk (FP.add a b)))).

End Sampled.

(** Doubles around which rounding, underflow and overflow happen, and the
    special values. *)
Definition double_samples : list float :=
  let pos :=
    [0%float; 0x1p-1074%float; 0x1p-1022%float; 0x1.87e92154ef7acp-665%float;
     0x1p-537%float; 0x1.999999999999ap-4%float; 0.5%float; 1%float;
     0x1.0000000000001p0%float; 1.5%float; 3%float; 94906267%float;
     100000000%float; 1000000000000000%float; 0x1p511%float;
     0x1.6a09e667f3bcdp511%float; 0x1p512%float; 0x1p1000%float;
     0x1.fffffffffffffp1023%float; infinity] in
  nan :: pos ++ map PrimFloat.opp pos.

(** * Basic facts *)

(** ** The result monad *)

Lemma bind_Ok {A B} (m : result A) (f : A → result B) (b : B) :
  m ≫= f = Ok b ↔ ∃ a, m = Ok a ∧ f a = Ok b.
Proof.
  destruct m as [a|e]; simpl.
  - split; [eauto | intros (a' & [= ->] & ?); done].
  - split; [done | intros (a' & [=] & ?)].
Qed.

Lemma bind_Err {A B} (m : result A) (f : A → result B) (e : error) :
  m ≫= f = Err e ↔ m = Err e ∨ ∃ a, m = Ok a ∧ f a = Err e.
Proof.
  destruct m as [a|e']; simpl.
  - split; [eauto | intros [[=] | (a' & [= ->] & ?)]; done].
  - split; [intros [= ->]; eauto | intros [[= ->] | (a' & [=] & ?)]; done].
Qed.

Lemma fails_in_Ok {A} E (a : A) : fails_in E (Ok a).
Proof. intros e [=]. Qed.

Lemma fails_in_bind {A B} E (m : result A) (f : A → result B) :
  fails_in E m → (∀ a, m = Ok a → fails_in E (f a)) → fails_in E (m ≫= f).
Proof.
  intros Hm Hf e [He | (a & Ha & He)]%bind_Err; [by apply Hm|].
  by apply (Hf a).
Qed.

(** ** Array accesses *)

Lemma get_Ok {A} (l : list A) i x :
  get l i = Ok x ↔ 0 ≤ i ∧ l !! Z.to_nat i = Some x.
Proof.
  unfold get. destruct (decide (0 ≤ i)); [|split; [done | lia]].
  destruct (l !! Z.to_nat i); split;
    [intros [= ->]; done | intros [_ [= ->]]; done | done | intros [_ [=]]].
Qed.

Lemma get_in_range {A} (l : list A) i :
  0 ≤ i < Z.of_nat (length l) → ∃ x, get l i = Ok x.
Proof.
  intros Hi. destruct (lookup_lt_is_Some_2 l (Z.to_nat i)) as [x Hx]; [lia|].
  exists x. apply get_Ok. split; [lia | done].
Qed.

Lemma get_fails {A} (l : list A) i : fails_in (eq OutOfRange) (get l i).
Proof.
  unfold get. intros e. destruct (decide _); [|congruence].
  destruct (_ !! _); congruence.
Qed.

Lemma set_fails {A} (l : list A) i x : fails_in (eq OutOfRange) (set l i x).
Proof. unfold set. intros e. destruct (decide _); congruence. Qed.

Lemma set_Ok {A} (l : list A) i x :
  0 ≤ i < Z.of_nat (length l) → set l i x = Ok (<[Z.to_nat i := x]> l).
Proof. intros Hi. unfold set. by rewrite decide_True. Qed.

Lemma swap_fails {A} (l : list A) i j : fails_in (eq OutOfRange) (swap l i j).
Proof.
  unfold swap. repeat (apply fails_in_bind; [apply get_fails | intros ? _]).
  apply fails_in_bind; [apply set_fails | intros ? _]. apply set_fails.
Qed.

Lemma swap_Ok {A} (l : list A) i j x y :
  0 ≤ i → 0 ≤ j →
  l !! Z.to_nat i = Some x → l !! Z.to_nat j = Some y →
  swap l i j = Ok (<[Z.to_nat j := x]> (<[Z.to_nat i := y]> l)).
Proof.
  intros Hi Hj Hx Hy. unfold swap.
  rewrite (proj2 (get_Ok l i x)), (proj2 (get_Ok l j y)) by done. simpl.
  apply lookup_lt_Some in Hx as Hx'. apply lookup_lt_Some in Hy as Hy'.
  rewrite set_Ok by lia. simpl. rewrite set_Ok; [done|].
  rewrite length_insert. lia.
Qed.

(** ** Counted loops *)

Lemma forLoop_from_inv {St} (I : label → St → Prop) n lo
    (body : label → St → result St) s :
  I lo s →
  (∀ i s, lo ≤ i < lo + Z.of_nat n → I i s →
     ∃ s', body i s = Ok s' ∧ I (i + 1) s') →
  ∃ s', forLoop_from n lo body s = Ok s' ∧ I (lo + Z.of_nat n) s'.
Proof.
  revert lo s. induction n as [|n IH]; intros lo s H0 Hstep.
  - exists s. split; [done|]. by replace (lo + Z.of_nat 0) with lo by lia.
  - destruct (Hstep lo s) as (s1 & Hb & H1); [lia | done |].
    destruct (IH (lo + 1) s1) as (s' & Hl & H'); [done | |].
    { intros i s2 Hi. apply Hstep. lia. }
    exists s'. simpl. rewrite Hb. simpl. split; [done|].
    by replace (lo + Z.of_nat (S n)) with (lo + 1 + Z.of_nat n) by lia.
Qed.

Lemma forLoop_inv {St} (I : label → St → Prop) lo hi
    (body : label → St → result St) s :
  lo ≤ hi →
  I lo s →
  (∀ i s, lo ≤ i < hi → I i s → ∃ s', body i s = Ok s' ∧ I (i + 1) s') →
  ∃ s', forLoop lo hi body s = Ok s' ∧ I hi s'.
Proof.
  intros Hle H0 Hstep. unfold forLoop.
  destruct (forLoop_from_inv I (Z.to_nat (hi - lo)) lo body s)
    as (s' & Hl & H'); [done | |].
  { intros i s1 Hi. apply Hstep. lia. }
  exists s'. split; [done|]. by replace hi with (lo + Z.of_nat (Z.to_nat (hi - lo))) by lia.
Qed.

Lemma forLoop_from_fails {St} E n lo (body : label → St → result St) s :
  (∀ i s, fails_in E (body i s)) → fails_in E (forLoop_from n lo body s).
Proof.
  intros Hb. revert lo s. induction n as [|n IH]; intros lo s; simpl.
  - apply fails_in_Ok.
  - apply fails_in_bind; [apply Hb | intros s' _; apply IH].
Qed.

Lemma forLoop_fails {St} E lo hi (body : label → St → result St) s :
  (∀ i s, fails_in E (body i s)) → fails_in E (forLoop lo hi body s).
Proof. apply forLoop_from_fails. Qed.

(** ** Permutations that only move the elements of a range *)

Lemma rangePerm_refl {A} a b (l : list A) : rangePerm a b l l.
Proof. split; done. Qed.

Lemma rangePerm_trans {A} a b (l1 l2 l3 : list A) :
  rangePerm a b l1 l2 → rangePerm a b l2 l3 → rangePerm a b l1 l3.
Proof.
  intros [Hp1 Ho1] [Hp2 Ho2]. split; [by rewrite Hp2|].
  intros i Hi. by rewrite Ho2, Ho1.
Qed.

Lemma rangePerm_widen {A} a b a' b' (l l' : list A) :
  a' ≤ a → b ≤ b' → rangePerm a b l l' → rangePerm a' b' l l'.
Proof. intros Ha Hb [Hp Ho]. split; [done|]. intros i Hi. apply Ho. lia. Qed.

Lemma rangePerm_length {A} a b (l l' : list A) :
  rangePerm a b l l' → length l' = length l.
Proof. intros [Hp _]. by apply Permutation_length. Qed.

Lemma insert_head_Permutation {A} (l : list A) (j : nat) x y :
  l !! j = Some y → y :: <[j := x]> l ≡ₚ x :: l.
Proof.
  revert j. induction l as [|b l IH]; intros [|j] Hj; simplify_eq/=.
  - apply perm_swap.
  - rewrite perm_swap, (IH j Hj). apply perm_swap.
Qed.

Lemma swap_Permutation {A} (l : list A) (i j : nat) x y :
  l !! i = Some x → l !! j = Some y → <[j := x]> (<[i := y]> l) ≡ₚ l.
Proof.
  revert i j. induction l as [|a l IH]; intros [|i] [|j] Hi Hj;
    simplify_eq/=.
  - done.
  - by apply insert_head_Permutation.
  - by apply insert_head_Permutation.
  - f_equiv. by apply IH.
Qed.

Lemma rangePerm_swap {A} a b (l : list A) (i j : nat) x y :
  a ≤ Z.of_nat i < b → a ≤ Z.of_nat j < b →
  l !! i = Some x → l !! j = Some y →
  rangePerm a b l (<[j := x]> (<[i := y]> l)).
Proof.
  intros Hi Hj Hx Hy. split; [by apply swap_Permutation|].
  intros n Hn. rewrite !list_lookup_insert_ne by lia. done.
Qed.

Lemma slice_split {A} a b (l : list A) :
  0 ≤ a ≤ b →
  l = take (Z.to_nat a) l ++ slice a b l ++ drop (Z.to_nat b) l.
Proof.
  intros Hab. unfold slice.
  replace (Z.to_nat b) with (Z.to_nat a + Z.to_nat (b - a))%nat at 1 by lia.
  rewrite <- drop_drop, take_drop, take_drop. done.
Qed.

Lemma lookup_slice {A} a b (l : list A) (i : nat) :
  0 ≤ a →
  slice a b l !! i =
    if decide (Z.of_nat i < b - a) then l !! (Z.to_nat a + i)%nat else None.
Proof.
  intros Ha. unfold slice. destruct (decide _).
  - rewrite lookup_take_lt by lia. apply lookup_drop.
  - apply lookup_take_ge. lia.
Qed.

Lemma elem_of_slice {A} a b (l : list A) x :
  0 ≤ a →
  x ∈ slice a b l ↔ ∃ i : nat, a ≤ Z.of_nat i < b ∧ l !! i = Some x.
Proof.
  intros Ha. rewrite list_elem_of_lookup. split.
  - intros [i Hi]. rewrite lookup_slice in Hi by done.
    destruct (decide _); [|done]. exists (Z.to_nat a + i)%nat. split; [lia|done].
  - intros (i & Hi & Hx). exists (i - Z.to_nat a)%nat.
    rewrite lookup_slice by done. rewrite decide_True by lia.
    by replace (Z.to_nat a + (i - Z.to_nat a))%nat with i by lia.
Qed.

Lemma length_slice {A} a b (l : list A) :
  0 ≤ a ≤ b → b ≤ Z.of_nat (length l) →
  length (slice a b l) = Z.to_nat (b - a).
Proof. intros. unfold slice. rewrite length_take, length_drop. lia. Qed.

Lemma rangePerm_slice {A} a b (l l' : list A) :
  0 ≤ a ≤ b → rangePerm a b l l' → slice a b l' ≡ₚ slice a b l.
Proof.
  intros Hab [Hp Ho].
  assert (take (Z.to_nat a) l' = take (Z.to_nat a) l) as Ht.
  { apply list_eq. intros i. destruct (decide (i < Z.to_nat a)%nat).
    - rewrite !lookup_take_lt by done. apply Ho. lia.
    - rewrite !lookup_take_ge by lia. done. }
  assert (drop (Z.to_nat b) l' = drop (Z.to_nat b) l) as Hd.
  { apply list_eq. intros i. rewrite !lookup_drop. apply Ho. lia. }
  rewrite (slice_split a b l Hab) in Hp at 1.
  rewrite (slice_split a b l' Hab) in Hp at 1.
  rewrite Ht, Hd in Hp.
  apply Permutation_app_inv_l in Hp. by apply Permutation_app_inv_r in Hp.
Qed.

Lemma rangePerm_elem {A} a b (l l' : list A) (i : nat) x :
  0 ≤ a → rangePerm a b l l' →
  a ≤ Z.of_nat i < b → l' !! i = Some x →
  ∃ j : nat, a ≤ Z.of_nat j < b ∧ l !! j = Some x.
Proof.
  intros Ha Hrp Hi Hx. apply elem_of_slice; [done|].
  rewrite <- (rangePerm_slice a b l l') by (done || lia).
  apply elem_of_slice; eauto.
Qed.

Lemma rangeAll_rangePerm {A} (P : A → Prop) l l' a b a' b' :
  0 ≤ a' → a' ≤ a → b ≤ b' →
  rangePerm a b l l' → rangeAll P l a' b' → rangeAll P l' a' b'.
Proof.
  intros Ha' Ha Hb Hrp Hv i Hi.
  destruct (decide (a ≤ i < b)) as [Hin|Hout].
  - destruct (lookup_lt_is_Some_2 l' (Z.to_nat i)) as [x Hx].
    { rewrite (rangePerm_length _ _ _ _ Hrp).
      destruct (Hv i Hi) as (? & ?%lookup_lt_Some & _). done. }
    destruct (rangePerm_elem a b l l' (Z.to_nat i) x) as (j & Hj & Hlj);
      [lia | done | lia | done |].
    destruct (Hv (Z.of_nat j)) as (y & Hy & Hky); [lia|].
    rewrite Nat2Z.id in Hy. exists x. split; [done | congruence].
  - destruct Hrp as [_ Ho]. rewrite Ho by lia. by apply Hv.
Qed.

Lemma rangeAll_weaken {A} (P : A → Prop) l a b a' b' :
  a ≤ a' → b' ≤ b → rangeAll P l a b → rangeAll P l a' b'.
Proof. intros Ha Hb Hv i Hi. apply Hv. lia. Qed.

Lemma rangeAll_impl {A} (P Q : A → Prop) l a b :
  (∀ x, P x → Q x) → rangeAll P l a b → rangeAll Q l a b.
Proof. intros HPQ Hv i Hi. destruct (Hv i Hi) as (x & ? & ?). eauto. Qed.

(** * The selection procedure [partitionIndices] *)

Section Partition.

Variable points_ : list scalarField.
Variable axis : label.

Local Abbreviation pointKey := (pointKey points_ axis).
Local Abbreviation hasKey := (hasKey points_ axis).
Local Abbreviation key := (key points_ axis).
Local Abbreviation keyAt := (keyAt points_ axis).
Local Abbreviation validRange := (validRange points_ axis).
Local Abbreviation splitAt := (splitAt points_ axis).

Lemma pointKey_key idx : hasKey idx → pointKey idx = Ok (key idx).
Proof. intros [v Hv]. unfold key. by rewrite Hv. Qed.

Lemma axisValue_Ok l i idx :
  0 ≤ i → l !! Z.to_nat i = Some idx → hasKey idx →
  axisValue points_ l i axis = Ok (keyAt l i).
Proof.
  intros Hi Hl Hk. unfold axisValue, keyAt.
  rewrite (proj2 (get_Ok l i idx)) by done. rewrite Hl. simpl.
  by apply pointKey_key.
Qed.

Lemma validRange_rangePerm l l' a b a' b' :
  0 ≤ a' → a' ≤ a → b ≤ b' →
  rangePerm a b l l' → validRange l a' b' → validRange l' a' b'.
Proof. apply rangeAll_rangePerm. Qed.

Lemma validRange_weaken l a b a' b' :
  a ≤ a' → b' ≤ b → validRange l a b → validRange l a' b'.
Proof. apply rangeAll_weaken. Qed.

Lemma keyAt_swap (l : list label) i j x y n :
  0 ≤ i → 0 ≤ j → 0 ≤ n →
  l !! Z.to_nat i = Some x → l !! Z.to_nat j = Some y →
  keyAt (<[Z.to_nat j := x]> (<[Z.to_nat i := y]> l)) n =
    if decide (n = j) then key x
    else if decide (n = i) then key y
    else keyAt l n.
Proof.
  intros Hi Hj Hn Hx Hy. unfold keyAt.
  apply lookup_lt_Some in Hx as Hx'. apply lookup_lt_Some in Hy as Hy'.
  destruct (decide (n = j)) as [->|Hnj].
  { rewrite list_lookup_insert_eq; [done|]. by rewrite length_insert. }
  rewrite list_lookup_insert_ne by lia.
  destruct (decide (n = i)) as [->|Hni].
  { by rewrite list_lookup_insert_eq. }
  by rewrite list_lookup_insert_ne by lia.
Qed.

(** The inner [for] loop: a Lomuto partition of [[left,right)] around
    [pivotVal]. *)
Lemma partition_inner (l0 : list label) (left right : label) pivotVal :
  0 ≤ left ≤ right → right ≤ Z.of_nat (length l0) →
  validRange l0 left right →
  ∃ l storeIdx,
    forLoop left right (partitionBody points_ axis pivotVal) (l0, left)
      = Ok (l, storeIdx) ∧
    left ≤ storeIdx ≤ right ∧
    rangePerm left right l0 l ∧
    (∀ i, left ≤ i < storeIdx → keyAt l i < pivotVal) ∧
    (∀ i, storeIdx ≤ i < right → pivotVal ≤ keyAt l i).
Proof.
  intros Hlr Hlen Hv.
  destruct (forLoop_inv
    (λ i st, left ≤ st.2 ≤ i ∧ rangePerm left right l0 st.1 ∧
       (∀ j, left ≤ j < st.2 → keyAt st.1 j < pivotVal) ∧
       (∀ j, st.2 ≤ j < i → pivotVal ≤ keyAt st.1 j))
    left right (partitionBody points_ axis pivotVal) (l0, left : label))
    as ([l s] & Hloop & Hs & Hrp & Hlt & Hge); simpl.
  - lia.
  - split; [lia|]. split; [apply rangePerm_refl|]. split; intros; lia.
  - intros i [l s] Hi (Hs & Hrp & Hlt & Hge). simpl in *.
    assert (validRange l left right) as Hvl.
    { by apply (validRange_rangePerm l0 l left right); [lia..| |]. }
    destruct (Hvl i Hi) as (x & Hx & Hkx).
    destruct (Hvl s ltac:(lia)) as (y & Hy & Hky).
    rewrite (axisValue_Ok l i x) by (done || lia). simpl.
    assert (keyAt l i = key x) as Hkeyi by (unfold keyAt; by rewrite Hx).
    assert (keyAt l s = key y) as Hkeys by (unfold keyAt; by rewrite Hy).
    destruct (decide (keyAt l i < pivotVal)) as [Hless|Hnless].
    + rewrite (swap_Ok l i s x y) by (done || lia). simpl.
      eexists. split; [done|]. simpl. split; [lia|]. split.
      { eapply rangePerm_trans; [done|].
        apply rangePerm_swap; [lia | lia | done..]. }
      split; intros j Hj; rewrite (keyAt_swap l i s x y j) by (done || lia).
      * destruct (decide (j = s)); [lia|]. rewrite decide_False by lia.
        apply Hlt. lia.
      * rewrite decide_False by lia.
        destruct (decide (j = i)); [rewrite <- Hkeys|]; apply Hge; lia.
    + eexists. split; [done|]. simpl. split; [lia|]. split; [done|].
      split; [done|]. intros j Hj.
      destruct (decide (j = i)) as [->|]; [lia | apply Hge; lia].
  - simpl in *. exists l, s. done.
Qed.

Lemma quot2_between left right :
  0 ≤ left → left < right → left ≤ Z.quot (left + right) 2 < right.
Proof.
  intros H0 Hlt. rewrite Z.quot_div_nonneg by lia.
  split; [apply Z.div_le_lower_bound | apply Z.div_lt_upper_bound]; lia.
Qed.

(** One iteration of the [while] loop puts the pivot at [storeIdx], the
    smaller keys of [[left,right]] before it and the others after it. *)
Lemma partitionStep_spec l left right :
  0 ≤ left → left < right → right < Z.of_nat (length l) →
  validRange l left (right + 1) →
  ∃ l' storeIdx,
    partitionStep points_ l left right axis = Ok (l', storeIdx) ∧
    left ≤ storeIdx ≤ right ∧
    rangePerm left (right + 1) l l' ∧
    (∀ i, left ≤ i < storeIdx → keyAt l' i < keyAt l' storeIdx) ∧
    (∀ i, storeIdx < i ≤ right → keyAt l' storeIdx ≤ keyAt l' i).
Proof.
  intros H0 Hlt Hlen Hv. unfold partitionStep.
  pose proof (quot2_between left right H0 Hlt) as Hmid.
  set (mid := Z.quot (left + right) 2) in *.
  destruct (Hv mid ltac:(lia)) as (xm & Hxm & Hkm).
  destruct (Hv right ltac:(lia)) as (xr & Hxr & Hkr).
  rewrite (axisValue_Ok l mid xm) by (done || lia). simpl.
  rewrite (swap_Ok l mid right xm xr) by (done || lia). simpl.
  set (l1 := <[Z.to_nat right := xm]> (<[Z.to_nat mid := xr]> l)).
  assert (rangePerm left (right + 1) l l1) as Hrp1.
  { apply rangePerm_swap; [lia | lia | done..]. }
  assert (keyAt l mid = key xm) as Hpv by (unfold keyAt; by rewrite Hxm).
  assert (l1 !! Z.to_nat right = Some xm) as Hl1r.
  { unfold l1. rewrite list_lookup_insert_eq; [done|].
    rewrite length_insert. lia. }
  assert (validRange l1 left (right + 1)) as Hv1.
  { by apply (validRange_rangePerm l l1 left (right + 1)); [lia..| |]. }
  destruct (partition_inner l1 left right (keyAt l mid))
    as (l2 & s & Hloop & Hs & Hrp2 & Hlt2 & Hge2).
  { lia. }
  { rewrite (rangePerm_length _ _ _ _ Hrp1). lia. }
  { eapply validRange_weaken; [| |exact Hv1]; lia. }
  rewrite Hloop. simpl.
  assert (l2 !! Z.to_nat right = Some xm) as Hl2r.
  { destruct Hrp2 as [_ Ho]. rewrite Ho by lia. done. }
  assert (validRange l2 left (right + 1)) as Hv2.
  { by apply (validRange_rangePerm l1 l2 left right); [lia..| |]. }
  destruct (Hv2 s ltac:(lia)) as (xs & Hxs & Hks).
  rewrite (swap_Ok l2 s right xs xm) by (done || lia). simpl.
  eexists _, s. split; [done|]. split; [done|].
  assert (keyAt l2 s = key xs) as Hk2s by (unfold keyAt; by rewrite Hxs).
  assert (keyAt (<[Z.to_nat right := xs]> (<[Z.to_nat s := xm]> l2)) s
          = keyAt l mid) as Hks'.
  { rewrite (keyAt_swap l2 s right xs xm s) by (done || lia).
    destruct (decide (s = right)) as [Hsr|Hsr]; simpl;
      [|rewrite decide_True by done]; congruence. }
  split.
  { eapply rangePerm_trans; [exact Hrp1|].
    eapply rangePerm_trans.
    - eapply rangePerm_widen; [| |exact Hrp2]; lia.
    - apply rangePerm_swap; [lia | lia | done..]. }
  split; intros i Hi; rewrite Hks';
    rewrite (keyAt_swap l2 s right xs xm i) by (done || lia).
  - rewrite !decide_False by lia. apply Hlt2. lia.
  - destruct (decide (i = right)).
    + rewrite <- Hk2s. apply Hge2. lia.
    + rewrite decide_False by lia. apply Hge2. lia.
Qed.

(** The active range shrinks: whichever side is kept, it has at least one
    element less than [[left,right]]. *)
Lemma partitionStep_shrinks l left right l' storeIdx :
  partitionStep points_ l left right axis = Ok (l', storeIdx) →
  left ≤ right →
  left ≤ storeIdx ≤ right.
Proof.
  unfold partitionStep. intros Hstep Hlr.
  apply bind_Ok in Hstep as (pv & _ & Hstep).
  apply bind_Ok in Hstep as (l1 & _ & Hstep).
  apply bind_Ok in Hstep as ([l2 s] & Hloop & Hstep).
  apply bind_Ok in Hstep as (l3 & _ & [= _ <-]).
  unfold forLoop in Hloop.
  assert (∀ n lo st st',
    forLoop_from n lo (partitionBody points_ axis pv) st = Ok st' →
    st.2 ≤ st'.2 ≤ st.2 + Z.of_nat n) as Hgen.
  { clear. induction n as [|n IH]; intros lo [li si] st' H; simpl in H.
    - injection H as <-. simpl. lia.
    - apply bind_Ok in H as ([lj sj] & Hb & H). apply IH in H. simpl in *.
      apply bind_Ok in Hb as (v & _ & Hb).
      destruct (decide (v < pv)).
      + apply bind_Ok in Hb as (? & _ & [= _ <-]). lia.
      + injection Hb as _ <-. lia. }
  apply Hgen in Hloop. simpl in Hloop. lia.
Qed.

Lemma keyAt_rangePerm a b l l1 n :
  0 ≤ a → rangePerm a b l l1 → 0 ≤ n < Z.of_nat (length l) →
  ∃ n', keyAt l1 n = keyAt l n' ∧ (n' = n ∨ (a ≤ n < b ∧ a ≤ n' < b)).
Proof.
  intros Ha Hrp Hn. destruct (decide (a ≤ n < b)) as [Hin|Hout].
  - destruct (lookup_lt_is_Some_2 l1 (Z.to_nat n)) as [x Hx].
    { rewrite (rangePerm_length _ _ _ _ Hrp). lia. }
    destruct (rangePerm_elem a b l l1 (Z.to_nat n) x) as (j & Hj & Hlj);
      [done | done | lia | done |].
    exists (Z.of_nat j). split; [|lia].
    unfold keyAt. by rewrite Hx, Nat2Z.id, Hlj.
  - exists n. split; [|by left]. destruct Hrp as [_ Ho].
    unfold keyAt. by rewrite Ho by lia.
Qed.

Lemma splitAt_rangePerm start end_ a b l l1 m :
  0 ≤ start → end_ ≤ Z.of_nat (length l) →
  start ≤ a → b ≤ end_ → b ≤ m ∨ m ≤ a →
  rangePerm a b l l1 → splitAt start end_ l m → splitAt start end_ l1 m.
Proof.
  intros H0 Hlen Ha Hb Hm Hrp Hsp i j Hi Hj.
  destruct (keyAt_rangePerm a b l l1 i) as (i' & -> & Hi');
    [lia | done | lia |].
  destruct (keyAt_rangePerm a b l l1 j) as (j' & -> & Hj');
    [lia | done | lia |].
  apply Hsp; lia.
Qed.

(** The [while] loop, with enough fuel for the active range. *)
Lemma partitionLoop_spec start end_ k fuel : ∀ l left right,
  0 ≤ start ≤ left → left ≤ k ≤ right →
  right < end_ ≤ Z.of_nat (length l) →
  right - left ≤ Z.of_nat fuel →
  validRange l start end_ →
  splitAt start end_ l left →
  splitAt start end_ l (right + 1) →
  ∃ l',
    partitionLoop points_ fuel l left right axis k = Ok l' ∧
    rangePerm start end_ l l' ∧
    (∀ i, start ≤ i < k → keyAt l' i ≤ keyAt l' k) ∧
    (∀ i, k < i < end_ → keyAt l' k ≤ keyAt l' i).
Proof.
  induction fuel as [|fuel IH]; intros l left right Hs Hk He Hf Hv Hl Hr.
  - exists l. simpl. rewrite decide_False by lia.
    assert (left = k ∧ right = k) as [-> ->] by lia.
    split; [done|]. split; [apply rangePerm_refl|].
    split; intros i Hi; [apply Hl | apply Hr]; lia.
  - simpl. destruct (decide (left < right)) as [Hlt|Hge].
    2:{ exists l. assert (left = k ∧ right = k) as [-> ->] by lia.
        split; [done|]. split; [apply rangePerm_refl|].
        split; intros i Hi; [apply Hl | apply Hr]; lia. }
    destruct (partitionStep_spec l left right)
      as (l1 & s & Hstep & Hsb & Hrp & Hlo & Hhi); [lia..| |].
    { eapply validRange_weaken; [| |exact Hv]; lia. }
    rewrite Hstep. simpl.
    assert (rangePerm start end_ l l1) as Hrp'.
    { eapply rangePerm_widen; [| |exact Hrp]; lia. }
    assert (splitAt start end_ l1 left) as Hl1.
    { apply (splitAt_rangePerm start end_ left (right + 1) l); (done || lia). }
    assert (splitAt start end_ l1 (right + 1)) as Hr1.
    { apply (splitAt_rangePerm start end_ left (right + 1) l); (done || lia). }
    assert (validRange l1 start end_) as Hv1.
    { by apply (validRange_rangePerm l l1 left (right + 1)); [lia..| |]. }
    assert (length l1 = length l) as Hlen1 by by eapply rangePerm_length.
    destruct (decide (s = k)) as [->|Hsk].
    { exists l1. split; [done|]. split; [done|]. split; intros i Hi.
      - destruct (decide (i < left)); [apply Hl1; lia|].
        apply Z.lt_le_incl, Hlo. lia.
      - destruct (decide (i ≤ right)); [apply Hhi; lia|]. apply Hr1; lia. }
    destruct (decide (k < s)) as [Hks|Hks].
    + destruct (IH l1 left (s - 1)) as (l' & Hloop & Hrp2 & Hpost);
        [lia | lia | lia | lia | done | done | |].
      { replace (s - 1 + 1) with s by lia. intros i j Hi Hj.
        destruct (decide (i < left)); [apply Hl1; lia|].
        destruct (decide (j ≤ right)); [|apply Hr1; lia].
        transitivity (keyAt l1 s); [apply Z.lt_le_incl, Hlo; lia|].
        destruct (decide (j = s)) as [->|]; [done | apply Hhi; lia]. }
      exists l'. split; [done|]. split; [|done].
      by eapply rangePerm_trans.
    + destruct (IH l1 (s + 1) right) as (l' & Hloop & Hrp2 & Hpost);
        [lia | lia | lia | lia | done | | done |].
      { intros i j Hi Hj.
        destruct (decide (i < left)); [apply Hl1; lia|].
        destruct (decide (j ≤ right)); [|apply Hr1; lia].
        transitivity (keyAt l1 s); [|apply Hhi; lia].
        destruct (decide (i = s)) as [->|]; [done|].
        apply Z.lt_le_incl, Hlo; lia. }
      exists l'. split; [done|]. split; [|done].
      by eapply rangePerm_trans.
Qed.

Lemma partitionIndices_spec l start end_ k :
  0 ≤ start → start ≤ k < end_ → end_ ≤ Z.of_nat (length l) →
  validRange l start end_ →
  ∃ l',
    partitionIndices points_ l start end_ axis k = Ok l' ∧
    rangePerm start end_ l l' ∧
    (∀ i, start ≤ i < k → keyAt l' i ≤ keyAt l' k) ∧
    (∀ i, k < i < end_ → keyAt l' k ≤ keyAt l' i).
Proof.
  intros H0 Hk He Hv. unfold partitionIndices.
  apply (partitionLoop_spec start end_); try (done || lia).
  - intros i j Hi Hj. lia.
  - intros i j Hi Hj. lia.
Qed.

End Partition.

(** * Order statistics *)

Section OrderStatistic.

Context (P : Z → Prop) `{!∀ x, Decision (P x)}.



End OrderStatistic.



(** * Slices of an index array *)

Lemma slice_app {A} a b c (l : list A) :
  0 ≤ a → a ≤ b → b ≤ c → slice a c l = slice a b l ++ slice b c l.
Proof.
  intros Ha Hab Hbc. unfold slice.
  replace (Z.to_nat (c - a)) with (Z.to_nat (b - a) + Z.to_nat (c - b))%nat
    by lia.
  rewrite <- take_take_drop, drop_drop. do 3 f_equal. lia.
Qed.

Lemma slice_singleton {A} m (l : list A) x :
  0 ≤ m → l !! Z.to_nat m = Some x → slice m (m + 1) l = [x].
Proof.
  intros Hm Hx. unfold slice. rewrite (drop_S l x) by done.
  by replace (Z.to_nat (m + 1 - m)) with 1%nat by lia.
Qed.

Lemma slice_empty {A} a b (l : list A) : b ≤ a → slice a b l = [].
Proof. intros. unfold slice. by replace (Z.to_nat (b - a)) with 0%nat by lia. Qed.

Lemma slice_outside {A} a b c d (l l' : list A) :
  0 ≤ c → d ≤ a ∨ b ≤ c → rangePerm a b l l' → slice c d l' = slice c d l.
Proof.
  intros Hc Hd [_ Ho]. apply list_eq. intros i.
  rewrite !lookup_slice by done. destruct (decide _); [|done].
  apply Ho. lia.
Qed.

Lemma slice_full {A} (l : list A) : slice 0 (Z.of_nat (length l)) l = l.
Proof.
  unfold slice. simpl. rewrite Z.sub_0_r, Nat2Z.id. apply firstn_all.
Qed.

(** * Construction *)

Section Build.

Variable leafSize_ : label.
Variable points_ : list scalarField.
Variable k_ : label.

Local Abbreviation validIndex := (validIndex points_).
Local Abbreviation treeInv := (treeInv leafSize_ points_ k_).

Hypothesis Hdim : Forall (λ p, Z.of_nat (length p) = k_) points_.

Lemma hasKey_valid axis idx :
  validIndex idx → 0 ≤ axis < k_ → hasKey points_ axis idx.
Proof.
  intros Hidx Hax. destruct (get_in_range points_ idx Hidx) as [p Hp].
  apply get_Ok in Hp as Hp'. destruct Hp' as [_ Hp'].
  pose proof (Forall_lookup_1 _ _ _ _ Hdim Hp') as Hlen. simpl in Hlen.
  destruct (get_in_range p axis) as [v Hv]; [lia|].
  exists v. unfold pointKey. rewrite Hp. simpl. done.
Qed.

Lemma leafCopy_spec (indices : list label) start end_ :
  0 ≤ start → start ≤ end_ → end_ ≤ Z.of_nat (length indices) →
  forLoop 0 (end_ - start)
    (λ i leafInds, x ← get indices (start + i); set leafInds i x)
    (replicate (Z.to_nat (end_ - start)) 0)
  = Ok (slice start end_ indices).
Proof.
  intros H0 Hse Hlen.
  destruct (forLoop_inv
    (λ i (li : list label),
       length li = Z.to_nat (end_ - start) ∧
       ∀ j : nat, Z.of_nat j < i →
         li !! j = indices !! (Z.to_nat start + j)%nat)
    0 (end_ - start)
    (λ i leafInds, x ← get indices (start + i); set leafInds i x)
    (replicate (Z.to_nat (end_ - start)) 0))
    as (s & Hloop & Hslen & Hs).
  - lia.
  - split; [apply length_replicate | intros; lia].
  - intros i li Hi [Hlil Hli].
    destruct (get_in_range indices (start + i)) as [x Hx]; [lia|].
    rewrite Hx. simpl. rewrite set_Ok by lia.
    eexists. split; [done|]. split; [by rewrite length_insert|].
    intros j Hj. destruct (decide (j = Z.to_nat i)) as [->|].
    + rewrite list_lookup_insert_eq by lia.
      apply get_Ok in Hx as [_ <-]. f_equal. lia.
    + rewrite list_lookup_insert_ne by lia. apply Hli. lia.
  - etrans; [exact Hloop|]. f_equal. apply list_eq. intros j.
    rewrite lookup_slice by done. destruct (decide _).
    + apply Hs. lia.
    + apply lookup_ge_None_2. lia.
Qed.

Lemma treeIndices_internal idx axis l r :
  treeIndices (internalNode idx axis l r)
  = idx :: treeIndices l ++ treeIndices r.
Proof. done. Qed.

Lemma quot2_half count : 0 < count → 0 ≤ Z.quot count 2 < count.
Proof.
  intros Hc. rewrite Z.quot_div_nonneg by lia.
  split; [apply Z.div_pos | apply Z.div_lt_upper_bound]; lia.
Qed.

(** [buildTree] on a range of valid point indices: it returns, unless it
    has to take a remainder modulo [k_ = 0]. *)
Lemma buildTree_spec fuel : ∀ (indices : list label) start end_ depth,
  0 ≤ start → start ≤ end_ → end_ ≤ Z.of_nat (length indices) →
  0 ≤ depth →
  rangeAll validIndex indices start end_ →
  match buildTree leafSize_ points_ k_ fuel indices start end_ depth with
  | Ok (indices', t) =>
      rangePerm start end_ indices indices' ∧
      treeIndices t ≡ₚ slice start end_ indices' ∧
      treeInv depth t ∧
      (valid t = true ↔ start < end_)
  | Err e =>
      (e = ModuloByZero ∧ k_ = 0 ∧ leafSize_ < end_ - start) ∨
      (e = OutOfFuel ∧ Z.of_nat fuel ≤ end_ - start)
  end.
Proof.
  induction fuel as [|fuel IH]; intros indices start end_ depth
    H0 Hse Hlen Hd Hvalid; [right; simpl; split; [done | lia]|].
  cbn [buildTree]. destruct (decide (end_ - start ≤ 0)) as [Hz|Hpos].
  { split; [apply rangePerm_refl|]. rewrite slice_empty by lia.
    split; [done|]. split; [done|]. simpl. split; [done | lia]. }
  destruct (decide (end_ - start ≤ leafSize_)) as [Hleaf|Hbig].
  { rewrite leafCopy_spec by lia. cbn.
    assert (length (slice start end_ indices) = Z.to_nat (end_ - start))
      as Hsl by (apply length_slice; lia).
    assert (slice start end_ indices ≠ []) as Hne.
    { intros Hnil. rewrite Hnil in Hsl. simpl in Hsl. lia. }
    rewrite !decide_True by done.
    split; [apply rangePerm_refl|]. split; [done|].
    split; [rewrite Hsl; lia|]. split; [lia | done]. }
  destruct (decide (k_ = 0)) as [Hk0|Hk0];
    [left; split; [done | split; [done | lia]]|].
  assert (0 < k_) as Hk.
  { destruct (Hvalid start ltac:(lia)) as (idx & _ & Hidx).
    destruct (get_in_range points_ idx Hidx) as [p [_ Hp]%get_Ok].
    pose proof (Forall_lookup_1 _ _ _ _ Hdim Hp) as Hp'. simpl in Hp'. lia. }
  pose proof (Z.rem_bound_pos depth k_ Hd Hk) as Hax.
  pose proof (quot2_half (end_ - start) ltac:(lia)) as Hhalf.
  set (axis := Z.rem depth k_) in *.
  set (mid := start + Z.quot (end_ - start) 2) in *.
  assert (validRange points_ axis indices start end_) as Hvr.
  { eapply rangeAll_impl; [|exact Hvalid]. intros idx Hidx.
    by apply hasKey_valid. }
  destruct (partitionIndices_spec points_ axis indices start end_ mid)
    as (indices1 & Hpart & Hrp1 & Hlo & Hhi); [lia | lia | lia | done |].
  rewrite Hpart. cbn [mbind result_bind].
  pose proof (rangePerm_length _ _ _ _ Hrp1) as Hlen1.
  assert (rangeAll validIndex indices1 start end_) as Hvalid1.
  { by apply (rangeAll_rangePerm _ indices indices1 start end_); [lia..| |]. }
  destruct (Hvalid1 mid ltac:(lia)) as (idx & Hidx & Hidxv).
  rewrite (proj2 (get_Ok indices1 mid idx)) by (split; [lia | done]).
  cbn [mbind result_bind].
  (* left subtree *)
  pose proof (IH indices1 start mid (depth + 1)) as HL.
  destruct (buildTree leafSize_ points_ k_ fuel indices1 start mid (depth + 1))
    as [[indices2 lt]|e]; cycle 1.
  { destruct HL as [(_ & ? & _)|[-> ?]]; [lia..| |done|right; split; [done|lia]].
    eapply rangeAll_weaken; [| |exact Hvalid1]; lia. }
  destruct HL as (Hrp2 & Hlt & Hinvl & _); [lia..| |].
  { eapply rangeAll_weaken; [| |exact Hvalid1]; lia. }
  cbn [mbind result_bind].
  pose proof (rangePerm_length _ _ _ _ Hrp2) as Hlen2.
  assert (rangeAll validIndex indices2 start end_) as Hvalid2.
  { by apply (rangeAll_rangePerm _ indices1 indices2 start mid); [lia..| |]. }
  (* right subtree *)
  pose proof (IH indices2 (mid + 1) end_ (depth + 1)) as HR.
  destruct (buildTree leafSize_ points_ k_ fuel indices2 (mid + 1) end_
              (depth + 1)) as [[indices3 rt]|e]; cycle 1.
  { destruct HR as [(_ & ? & _)|[-> ?]]; [lia..| |done|right; split; [done|lia]].
    eapply rangeAll_weaken; [| |exact Hvalid2]; lia. }
  destruct HR as (Hrp3 & Hrt & Hinvr & _); [lia..| |].
  { eapply rangeAll_weaken; [| |exact Hvalid2]; lia. }
  cbn [mbind result_bind].
  assert (indices3 !! Z.to_nat mid = Some idx) as Hidx3.
  { destruct Hrp3 as [_ Ho3]. rewrite Ho3 by lia.
    destruct Hrp2 as [_ Ho2]. rewrite Ho2 by lia. done. }
  split.
  { eapply rangePerm_trans; [exact Hrp1|].
    eapply rangePerm_trans.
    - eapply rangePerm_widen; [| |exact Hrp2]; lia.
    - eapply rangePerm_widen; [| |exact Hrp3]; lia. }
  split.
  { rewrite treeIndices_internal.
    rewrite (slice_app start mid end_) by lia.
    rewrite (slice_app mid (mid + 1) end_) by lia.
    rewrite (slice_singleton mid indices3 idx) by (done || lia).
    rewrite (slice_outside (mid + 1) end_ start mid indices2 indices3)
      by (done || lia).
    rewrite Hlt, Hrt. simpl. apply Permutation_middle. }
  split; [|simpl; split; [lia | done]].
  assert (keyAt points_ axis indices1 mid = key points_ axis idx) as Hkm.
  { unfold keyAt. by rewrite Hidx. }
  cbn [treeInv internalNode]. rewrite decide_False by (intros H; by apply H).
  split; [done|]. split; [done|].
  split; [|split; [|done]].
  - intros i Hi. rewrite Hlt in Hi.
    rewrite (rangePerm_slice start mid indices1 indices2) in Hi by (done || lia).
    apply elem_of_slice in Hi as (j & Hj & Hij); [|done].
    rewrite <- Hkm. specialize (Hlo (Z.of_nat j) ltac:(lia)).
    unfold keyAt in Hlo at 1. by rewrite Nat2Z.id, Hij in Hlo.
  - intros i Hi. rewrite Hrt in Hi.
    rewrite (rangePerm_slice (mid + 1) end_ indices2 indices3) in Hi
      by (done || lia).
    rewrite (slice_outside start mid (mid + 1) end_ indices1 indices2) in Hi
      by (done || lia).
    apply elem_of_slice in Hi as (j & Hj & Hij); [|lia].
    rewrite <- Hkm. specialize (Hhi (Z.of_nat j) ltac:(lia)).
    unfold keyAt in Hhi at 2. by rewrite Nat2Z.id, Hij in Hhi.
Qed.

End Build.

(** * Distances *)

Lemma sqDist_nonneg a b : 0 ≤ sqDist a b.
Proof.
  revert b. induction a as [|x a IH]; intros [|y b]; simpl; try lia.
  specialize (IH b). pose proof (Z.square_nonneg (x - y)). lia.
Qed.

Lemma sqDist_snoc a b x y :
  length a = length b →
  sqDist (a ++ [x]) (b ++ [y]) = sqDist a b + (x - y) * (x - y).
Proof.
  revert b. induction a as [|x' a IH]; intros [|y' b] Hlen; simplify_eq/=.
  - lia.
  - rewrite IH by done. lia.
Qed.

(** One coordinate alone is at most the whole distance. *)
Lemma sqDist_ge_coord a b (ax : nat) x y :
  a !! ax = Some x → b !! ax = Some y → (x - y) * (x - y) ≤ sqDist a b.
Proof.
  revert b ax. induction a as [|x' a IH]; intros [|y' b] [|ax] Ha Hb;
    simplify_eq/=.
  - pose proof (sqDist_nonneg a b). lia.
  - specialize (IH b ax Ha Hb). pose proof (Z.square_nonneg (x' - y')). lia.
Qed.

Lemma distSqr_Ok k (a b : scalarField) :
  Z.of_nat (length a) = k → Z.of_nat (length b) = k →
  distSqr k a b = Ok (sqDist a b).
Proof.
  intros Ha Hb. unfold distSqr.
  destruct (forLoop_inv
    (λ d sum, sum = sqDist (take (Z.to_nat d) a) (take (Z.to_nat d) b))
    0 k
    (λ d sum,
       x ← get a d; y ← get b d; let diff := x - y in Ok (sum + diff * diff))
    0) as (s & Hloop & Hs).
  - lia.
  - done.
  - intros d sum Hd ->.
    destruct (get_in_range a d) as [x Hx]; [lia|].
    destruct (get_in_range b d) as [y Hy]; [lia|].
    rewrite Hx, Hy. simpl. eexists. split; [done|].
    apply get_Ok in Hx as [_ Hx]. apply get_Ok in Hy as [_ Hy].
    replace (Z.to_nat (d + 1)) with (S (Z.to_nat d)) by lia.
    rewrite (take_S_r a _ x), (take_S_r b _ y) by done.
    rewrite sqDist_snoc; [done|]. rewrite !length_take. lia.
  - etrans; [exact Hloop|]. rewrite Hs. f_equal.
    rewrite !take_ge by lia. done.
Qed.

(** * Search *)

Section Search.

Variable points_ : list scalarField.
Variable k_ : label.
Variable query : scalarField.

Local Abbreviation pointAt := (pointAt points_).
Local Abbreviation dist := (dist points_ query).
Local Abbreviation improved := (improved points_ query).

Lemma improved_nil b : improved [] b b.
Proof. split; [lia|]. split; [|by left]. intros i Hi. by apply elem_of_nil in Hi. Qed.

Lemma improved_app S1 S2 b0 b1 b2 :
  improved S1 b0 b1 → improved S2 b1 b2 → improved (S1 ++ S2) b0 b2.
Proof.
  intros (Hle1 & Hall1 & Hch1) (Hle2 & Hall2 & Hch2).
  split; [lia|]. split.
  - intros i [Hi|Hi]%elem_of_app; [|by apply Hall2].
    specialize (Hall1 i Hi). lia.
  - destruct Hch2 as [->|(Hlt & Hin & Hd)].
    + destruct Hch1 as [->|(Hlt & Hin & Hd)]; [by left|].
      right. split; [done|]. split; [|done]. apply elem_of_app. by left.
    + right. split; [lia|]. split; [|done]. apply elem_of_app. by right.
Qed.

(** Pruning: candidates that cannot beat the current best may be left
    out. *)
Lemma improved_skip S1 S2 b0 b1 :
  improved S1 b0 b1 → (∀ i, i ∈ S2 → b1.2 ≤ dist i) →
  improved (S1 ++ S2) b0 b1.
Proof.
  intros (Hle1 & Hall1 & Hch1) Hfar. split; [done|]. split.
  - intros i [Hi|Hi]%elem_of_app; [by apply Hall1 | by apply Hfar].
  - destruct Hch1 as [->|(Hlt & Hin & Hd)]; [by left|].
    right. split; [done|]. split; [|done]. apply elem_of_app. by left.
Qed.

Lemma improved_equiv S S' b b' :
  (∀ i, i ∈ S ↔ i ∈ S') → improved S b b' → improved S' b b'.
Proof.
  intros HS (Hle & Hall & Hch). split; [done|]. split.
  - intros i Hi. apply Hall, HS, Hi.
  - destruct Hch as [->|(Hlt & Hin & Hd)]; [by left|].
    right. split; [done|]. split; [|done]. by apply HS.
Qed.

(** The best distance is determined by the candidates. *)
Lemma improved_unique S b b1 b2 :
  improved S b b1 → improved S b b2 → b1.2 = b2.2.
Proof.
  intros (Hle1 & Hall1 & Hch1) (Hle2 & Hall2 & Hch2).
  destruct Hch1 as [->|(Hlt1 & Hin1 & Hd1)],
    Hch2 as [->|(Hlt2 & Hin2 & Hd2)].
  - done.
  - specialize (Hall1 _ Hin2). lia.
  - specialize (Hall2 _ Hin1). lia.
  - specialize (Hall1 _ Hin2). specialize (Hall2 _ Hin1). lia.
Qed.

Hypothesis Hdim : Forall (λ p, Z.of_nat (length p) = k_) points_.
Hypothesis Hquery : Z.of_nat (length query) = k_.

Lemma get_pointAt idx :
  validIndex points_ idx →
  get points_ idx = Ok (pointAt idx) ∧ Z.of_nat (length (pointAt idx)) = k_.
Proof.
  intros Hidx. destruct (get_in_range points_ idx Hidx) as [p Hp].
  apply get_Ok in Hp as Hp'. destruct Hp' as [_ Hp'].
  assert (pointAt idx = p) as -> by (unfold pointAt; by rewrite Hp').
  split; [done|]. apply (Forall_lookup_1 _ _ _ _ Hdim Hp').
Qed.

Lemma candidate_spec idx b :
  validIndex points_ idx →
  candidate points_ k_ query idx b
  = Ok (if decide (dist idx < b.2) then (idx, dist idx) else b).
Proof.
  intros Hidx. destruct (get_pointAt idx Hidx) as [Hget Hlen].
  unfold candidate. rewrite Hget. simpl.
  rewrite distSqr_Ok by done. simpl. unfold dist. by destruct (decide _).
Qed.

Lemma candidate_improved idx b :
  improved [idx]
    b (if decide (dist idx < b.2) then (idx, dist idx) else b).
Proof.
  destruct (decide _) as [Hlt|Hge]; simpl.
  - split; [simpl; lia|]. split.
    + intros i ->%list_elem_of_singleton. simpl. lia.
    + right. simpl. split; [done|]. split; [|done].
      by apply list_elem_of_singleton.
  - split; [lia|]. split; [|by left].
    intros i ->%list_elem_of_singleton. lia.
Qed.

Lemma scanLeaf_spec inds : ∀ b,
  Forall (validIndex points_) inds →
  ∃ b', scanLeaf points_ k_ query inds b = Ok b' ∧ improved inds b b'.
Proof.
  induction inds as [|idx inds IH]; intros b Hv.
  - exists b. split; [done | apply improved_nil].
  - apply Forall_cons in Hv as [Hidx Hv]. simpl.
    rewrite candidate_spec by done. simpl.
    destruct (IH (if decide (dist idx < b.2) then (idx, dist idx) else b) Hv)
      as (b' & Hscan & Himp).
    exists b'. split; [done|].
    apply (improved_app [idx] inds _ _ _ (candidate_improved idx b) Himp).
Qed.

Lemma key_pointAt axis idx :
  validIndex points_ idx → 0 ≤ axis < k_ →
  pointAt idx !! Z.to_nat axis = Some (key points_ axis idx) ∧
  get (pointAt idx) axis = Ok (key points_ axis idx).
Proof.
  intros Hidx Hax. destruct (get_pointAt idx Hidx) as [Hget Hlen].
  destruct (get_in_range (pointAt idx) axis) as [v Hv]; [lia|].
  unfold key, pointKey. rewrite Hget. simpl. rewrite Hv.
  split; [|done]. by apply get_Ok in Hv as [_ Hv].
Qed.

Lemma search_valid_guard (t : Node) b :
  (if valid t then nearestSearch points_ k_ t query b else Ok b)
  = nearestSearch points_ k_ t query b.
Proof. by destruct t. Qed.

(** The test that prunes the far side is sound: a point on the far side
    of the splitting plane is at least as far as the plane. *)
Lemma prune_bound axis p i qa :
  validIndex points_ i → 0 ≤ axis < k_ →
  query !! Z.to_nat axis = Some qa →
  (qa - key points_ axis p < 0 ∧ key points_ axis p ≤ key points_ axis i) ∨
  (0 ≤ qa - key points_ axis p ∧ key points_ axis i ≤ key points_ axis p) →
  (qa - key points_ axis p) * (qa - key points_ axis p) ≤ dist i.
Proof.
  intros Hi Hax Hqa Hside.
  destruct (key_pointAt axis i Hi Hax) as [Hki _].
  pose proof (sqDist_ge_coord _ _ _ _ _ Hki Hqa) as Hge. fold (dist i) in Hge.
  etrans; [|exact Hge]. nia.
Qed.

Lemma nearestSearch_spec leafSize (t : Node) : ∀ depth b,
  treeInv leafSize points_ k_ depth t →
  Forall (validIndex points_) (treeIndices t) →
  ∃ b', nearestSearch points_ k_ t query b = Ok b' ∧
        improved (treeIndices t) b b'.
Proof.
  induction t as [|leaf p ax l IHl r IHr]; intros depth b Hinv Hv.
  { exists b. split; [done | apply improved_nil]. }
  simpl in *. destruct (decide (leaf ≠ [])) as [Hleaf|Hint].
  { by apply scanLeaf_spec. }
  destruct Hinv as (Hax & _ & Hleft & Hright & Hinvl & Hinvr).
  apply Forall_cons in Hv as [Hp Hv]. apply Forall_app in Hv as [Hvl Hvr].
  rewrite candidate_spec by done. simpl.
  pose proof (candidate_improved p b) as Himp1.
  set (b1 := if decide (dist p < b.2) then (p, dist p) else b) in *.
  destruct (get_in_range query ax) as [qa Hqa]; [lia|].
  destruct (get_pointAt p Hp) as [Hgetp _].
  destruct (key_pointAt ax p Hp Hax) as [_ Hgetk].
  rewrite Hqa. cbn [mbind result_bind]. rewrite Hgetp. cbn [mbind result_bind].
  rewrite Hgetk. cbn [mbind result_bind].
  apply get_Ok in Hqa as [_ Hqa].
  destruct (decide (qa - key points_ ax p < 0)) as [Hneg|Hpos].
  - rewrite search_valid_guard.
    destruct (IHl (depth + 1) b1 Hinvl Hvl) as (b2 & -> & Himp2). simpl.
    pose proof (improved_app _ _ _ _ _ Himp1 Himp2) as Himp12.
    destruct (valid r) eqn:Hvalid.
    + destruct (decide (_ < b2.2)) as [Hnear|Hfar].
      * destruct (IHr (depth + 1) b2 Hinvr Hvr) as (b3 & -> & Himp3).
        exists b3. split; [done|].
        pose proof (improved_app _ _ _ _ _ Himp12 Himp3) as Himp.
        by rewrite <- app_assoc in Himp.
      * exists b2. split; [done|].
        pose proof (improved_skip _ (treeIndices r) _ _ Himp12) as Himp.
        rewrite <- app_assoc in Himp. apply Himp. intros i Hi.
        rewrite Forall_forall in Hvr.
        etrans;
          [|apply (prune_bound ax p i qa); [by apply Hvr | done | done |]];
          [lia|].
        left. split; [lia | by apply Hright].
    + destruct r; [|done]. exists b2. split; [done|].
      simpl. by rewrite app_nil_r.
  - rewrite search_valid_guard.
    destruct (IHr (depth + 1) b1 Hinvr Hvr) as (b2 & -> & Himp2). simpl.
    pose proof (improved_app _ _ _ _ _ Himp1 Himp2) as Himp12.
    assert (∀ b', improved (([p] ++ treeIndices r) ++ treeIndices l) b b' →
      improved (p :: treeIndices l ++ treeIndices r) b b') as Hswap.
    { intros b'. apply improved_equiv. intros i.
      repeat first
        [rewrite elem_of_cons | rewrite elem_of_app | rewrite elem_of_nil].
      tauto. }
    destruct (valid l) eqn:Hvalid.
    + destruct (decide (_ < b2.2)) as [Hnear|Hfar].
      * destruct (IHl (depth + 1) b2 Hinvl Hvl) as (b3 & -> & Himp3).
        exists b3. split; [done|].
        apply Hswap. by apply (improved_app _ _ _ _ _ Himp12 Himp3).
      * exists b2. split; [done|].
        apply Hswap, improved_skip; [done|]. intros i Hi.
        rewrite Forall_forall in Hvl.
        etrans;
          [|apply (prune_bound ax p i qa); [by apply Hvl | done | done |]];
          [lia|].
        right. split; [lia | by apply Hleft].
    + destruct l; [|done]. exists b2. split; [done|].
      apply Hswap. simpl. by rewrite app_nil_r.
Qed.

End Search.

(** * The constructor *)

Lemma checkDimensions_spec points k :
  checkDimensions points k =
    if decide (Forall (λ p, Z.of_nat (length p) = k) points) then Ok ()
    else Err DimensionMismatch.
Proof.
  induction points as [|p points IH]; cbn [checkDimensions].
  - by rewrite decide_True.
  - destruct (decide (Z.of_nat (length p) ≠ k)) as [Hne|Heq].
    + rewrite decide_False; [done|]. by intros [? _]%Forall_cons.
    + rewrite IH. apply dec_stable in Heq.
      destruct (decide (Forall _ points)) as [Hall|Hnall].
      * rewrite decide_True; [done|]. by apply Forall_cons.
      * rewrite decide_False; [done|]. by intros [_ ?]%Forall_cons.
Qed.

Lemma rangeAll_seqZ (points : list scalarField) :
  rangeAll (validIndex points) (seqZ 0 (Z.of_nat (length points)))
    0 (Z.of_nat (length points)).
Proof.
  intros i Hi. exists i. split; [|done].
  rewrite lookup_seqZ. split; lia.
Qed.

(** With [k_ = 0], a range too large for a leaf makes [buildTree] take
    [depth % 0]. *)
Lemma buildTree_mod0 leafSize points fuel indices start end_ depth :
  0 < end_ - start → leafSize < end_ - start →
  buildTree leafSize points 0 (S fuel) indices start end_ depth
  = Err ModuloByZero.
Proof.
  intros Hpos Hbig. cbn [buildTree].
  rewrite !decide_False by lia. by rewrite decide_True.
Qed.

(** The three outcomes of the constructor. *)
Lemma KDTree_new_cases leafSize points :
  match KDTree_new leafSize points with
  | Ok t =>
      points_ t = points ∧ k_ t = dimension points ∧ consistent points ∧
      (points = [] ∨ dimension points ≠ 0 ∨
       Z.of_nat (length points) ≤ leafSize) ∧
      treeInv leafSize points (k_ t) 0 (root_ t) ∧
      treeIndices (root_ t) ≡ₚ seqZ 0 (Z.of_nat (length points)) ∧
      (valid (root_ t) = true ↔ points ≠ [])
  | Err e =>
      (e = DimensionMismatch ∧ ¬ consistent points) ∨
      (e = ModuloByZero ∧ consistent points ∧ points ≠ [] ∧
       dimension points = 0 ∧ leafSize < Z.of_nat (length points))
  end.
Proof.
  unfold KDTree_new. destruct points as [|p0 points'].
  { simpl. split; [done|]. split; [done|]. split; [by constructor|].
    split; [by left|]. split; [done|]. split; [done|]. split; done. }
  change (Z.of_nat (length p0)) with (dimension (p0 :: points')).
  assert (p0 :: points' ≠ []) as Hne by done.
  set (points := p0 :: points') in *.
  rewrite checkDimensions_spec. fold (consistent points).
  destruct (decide (consistent points)) as [Hcons|Hincons]; [|by left].
  cbn [mbind result_bind]. rewrite length_seqZ, Nat2Z.id.
  assert (0 < Z.of_nat (length points)) as Hlen by (unfold points; simpl; lia).
  destruct (decide (dimension points = 0
                    ∧ leafSize < Z.of_nat (length points))) as [[Hd0 Hls]|Hok].
  { rewrite Hd0. rewrite buildTree_mod0 by lia. right. done. }
  pose proof (buildTree_spec leafSize points (dimension points) Hcons
    (S (length points)) (seqZ 0 (Z.of_nat (length points)))
    0 (Z.of_nat (length points)) 0) as Hbuild.
  destruct (buildTree _ _ _ _ _ _ _ _) as [[indices' root]|e].
  - destruct Hbuild as (Hrp & Hidx & Hinv & Hvalid);
      [lia | lia | rewrite length_seqZ; lia | lia
      | apply rangeAll_seqZ |].
    cbn. split; [done|]. split; [done|]. split; [done|].
    split.
    { destruct (decide (dimension points = 0)) as [Hd0|Hd0];
        [|right; by left].
      right. right. apply Z.nlt_ge. intros Hlt. by apply Hok. }
    split; [done|]. split; [|split; [done | intros _; apply Hvalid; lia]].
    rewrite Hidx. destruct Hrp as [Hperm _].
    replace (Z.of_nat (length points)) with (Z.of_nat (length indices')) at 1.
    + by rewrite slice_full.
    + rewrite (Permutation_length Hperm), length_seqZ. lia.
  - destruct Hbuild as [(_ & Hk0 & Hbig)|[_ Hfuel]];
      [lia | lia | rewrite length_seqZ; lia | lia
      | apply rangeAll_seqZ | lia | lia].
Qed.

(** * Queries *)

Lemma search_spec leafSize GREAT points t query :
  KDTree_new leafSize points = Ok t →
  Z.of_nat (length query) = k_ t →
  ∃ b, search GREAT t query = Ok b ∧
       improved points query (seqZ 0 (Z.of_nat (length points)))
         (-1, GREAT) b.
Proof.
  intros Hnew Hq. pose proof (KDTree_new_cases leafSize points) as Hcases.
  rewrite Hnew in Hcases.
  destruct Hcases as (Hpts & Hk & Hcons & _ & Hinv & Hidx & _).
  unfold consistent in Hcons. rewrite <- Hk in Hcons.
  destruct (nearestSearch_spec points (k_ t) query Hcons Hq leafSize
    (root_ t) 0 (-1, GREAT) Hinv) as (b & Hsearch & Himp).
  { apply Forall_forall. intros i Hi. rewrite Hidx in Hi.
    apply elem_of_seqZ in Hi. unfold validIndex. lia. }
  exists b. unfold search. rewrite Hpts. split; [done|].
  eapply improved_equiv; [|exact Himp]. intros i. by rewrite Hidx.
Qed.

(** The exhaustive scan of the test application computes the same
    minimum. *)
Lemma bruteLoop_spec points query :
  Forall (λ p, length p = length query) points →
  ∀ pts i st,
    0 ≤ i → drop (Z.to_nat i) points = pts →
    ∃ st', bruteLoop pts i query st = Ok st' ∧
           improved points query (seqZ i (Z.of_nat (length pts))) st st'.
Proof.
  intros Hlen pts. induction pts as [|p pts IH]; intros i st Hi Hdrop.
  { exists st. split; [done | apply improved_nil]. }
  assert (points !! Z.to_nat i = Some p) as Hp.
  { rewrite <- (Nat.add_0_r (Z.to_nat i)), <- lookup_drop. by rewrite Hdrop. }
  assert (pointAt points i = p) as Hpa by (unfold pointAt; by rewrite Hp).
  cbn [bruteLoop].
  change (forLoop 0 (Z.of_nat (length query)) _ 0)
    with (distSqr (Z.of_nat (length query)) p query).
  rewrite distSqr_Ok; [|f_equal; apply (Forall_lookup_1 _ _ _ _ Hlen Hp)|done].
  cbn [mbind result_bind].
  replace (sqDist p query) with (dist points query i)
    by (unfold dist; by rewrite Hpa).
  destruct (IH (i + 1)
    (if decide (dist points query i < st.2)
     then (i, dist points query i) else st))
    as (st' & Hloop & Himp); [lia| |].
  { replace (Z.to_nat (i + 1)) with (S (Z.to_nat i)) by lia.
    erewrite drop_S in Hdrop by done. by injection Hdrop. }
  exists st'. split; [done|].
  rewrite seqZ_cons by (simpl; lia).
  replace (Z.pred (Z.of_nat (length (p :: pts))))
    with (Z.of_nat (length pts)) by (simpl; lia).
  apply (improved_app points query [i] _ _ _ _
           (candidate_improved points query i st) Himp).
Qed.

Lemma bruteNearest_spec GREAT points query :
  Forall (λ p, length p = length query) points →
  ∃ b, bruteNearest GREAT points query = Ok b ∧
       improved points query (seqZ 0 (Z.of_nat (length points)))
         (-1, GREAT) b.
Proof.
  intros Hlen. by apply bruteLoop_spec.
Qed.

(** * The order in which candidates are tested *)

Section Trace.

Variable points_ : list scalarField.
Variable k_ : label.
Variable query : scalarField.

Local Abbreviation candidateDist := (candidateDist points_ k_ query).
Local Abbreviation nearestSearchTrace := (nearestSearchTrace points_ k_ query).
Local Abbreviation first_best := (first_best points_ k_ query).

Lemma candidate_dist idx b :
  candidate points_ k_ query idx b =
    d2 ← candidateDist idx;
    Ok (if decide (d2 < b.2) then (idx, d2) else b).
Proof.
  unfold candidate, candidateDist. destruct (get points_ idx) as [p|]; [|done].
  simpl. destruct (distSqr k_ p query) as [d2|]; [|done].
  simpl. by destruct (decide _).
Qed.

Lemma nearestSearchTrace_erase (n : Node) : ∀ b,
  nearestSearch points_ k_ n query b
  = (r ← nearestSearchTrace n b; Ok r.1).
Proof.
  induction n as [|leaf p ax l IHl r IHr]; intros b; [done|].
  cbn [nearestSearch nearestSearchTrace].
  destruct (decide (leaf ≠ [])).
  { by destruct (scanLeaf _ _ _ _ _). }
  destruct (candidate _ _ _ _ _) as [b1|]; [|done]. cbn [mbind result_bind].
  destruct (get query ax) as [qa|]; [|done]. cbn [mbind result_bind].
  destruct (get points_ p) as [pt|]; [|done]. cbn [mbind result_bind].
  destruct (get pt ax) as [pa|]; [|done]. cbn [mbind result_bind].
  destruct (decide (qa - pa < 0)).
  - destruct (valid l).
    + rewrite IHl. destruct (nearestSearchTrace l b1) as [[b2 T1]|]; [|done].
      cbn [mbind result_bind fst]. destruct (valid r); [|done].
      destruct (decide _); [|done]. rewrite IHr.
      by destruct (nearestSearchTrace r b2) as [[b3 T2]|].
    + cbn [mbind result_bind fst]. destruct (valid r); [|done].
      destruct (decide _); [|done]. rewrite IHr.
      by destruct (nearestSearchTrace r b1) as [[b3 T2]|].
  - destruct (valid r).
    + rewrite IHr. destruct (nearestSearchTrace r b1) as [[b2 T1]|]; [|done].
      cbn [mbind result_bind fst]. destruct (valid l); [|done].
      destruct (decide _); [|done]. rewrite IHl.
      by destruct (nearestSearchTrace l b2) as [[b3 T2]|].
    + cbn [mbind result_bind fst]. destruct (valid l); [|done].
      destruct (decide _); [|done]. rewrite IHl.
      by destruct (nearestSearchTrace l b1) as [[b3 T2]|].
Qed.

Lemma scanLeaf_app T1 T2 : ∀ b,
  scanLeaf points_ k_ query (T1 ++ T2) b
  = (b1 ← scanLeaf points_ k_ query T1 b; scanLeaf points_ k_ query T2 b1).
Proof.
  induction T1 as [|c T1 IH]; intros b; [done|]. simpl.
  destruct (candidate _ _ _ _ _) as [b1|]; [|done]. simpl. apply IH.
Qed.

(** The search is the sequence of the candidate tests of its trace. *)
Lemma nearestSearchTrace_scan (n : Node) : ∀ b b' T,
  nearestSearchTrace n b = Ok (b', T) →
  scanLeaf points_ k_ query T b = Ok b'.
Proof.
  induction n as [|leaf p ax l IHl r IHr]; intros b b' T Htrace.
  { by injection Htrace as <- <-. }
  cbn [nearestSearchTrace] in Htrace.
  destruct (decide (leaf ≠ [])).
  { apply bind_Ok in Htrace as (b1 & Hscan & [= <- <-]). done. }
  apply bind_Ok in Htrace as (b1 & Hcand & Htrace).
  apply bind_Ok in Htrace as (qa & _ & Htrace).
  apply bind_Ok in Htrace as (pt & _ & Htrace).
  apply bind_Ok in Htrace as (pa & _ & Htrace).
  apply bind_Ok in Htrace as ([b2 T1] & Hnear & Htrace).
  apply bind_Ok in Htrace as ([b3 T2] & Hfar & [= <- <-]).
  assert (scanLeaf points_ k_ query T1 b1 = Ok b2) as Hs1.
  { destruct (decide (qa - pa < 0)).
    - destruct (valid l); [by apply IHl | by injection Hnear as <- <-].
    - destruct (valid r); [by apply IHr | by injection Hnear as <- <-]. }
  assert (scanLeaf points_ k_ query T2 b2 = Ok b3) as Hs2.
  { destruct (decide (qa - pa < 0)).
    - destruct (valid r); [|by injection Hfar as <- <-].
      destruct (decide _); [by apply IHr | by injection Hfar as <- <-].
    - destruct (valid l); [|by injection Hfar as <- <-].
      destruct (decide _); [by apply IHl | by injection Hfar as <- <-]. }
  cbn [scanLeaf]. rewrite Hcand. cbn [mbind result_bind].
  rewrite scanLeaf_app, Hs1. done.
Qed.

Lemma scanLeaf_first_best T : ∀ b b',
  scanLeaf points_ k_ query T b = Ok b' → first_best T b b'.
Proof.
  induction T as [|c T IH]; intros b b' Hscan.
  { injection Hscan as <-. left. split; [done|].
    intros c Hc. by apply elem_of_nil in Hc. }
  cbn [scanLeaf] in Hscan. rewrite candidate_dist in Hscan.
  apply bind_Ok in Hscan as (b1 & Hcand & Hscan).
  apply bind_Ok in Hcand as (d & Hd & [= <-]).
  destruct (IH _ _ Hscan) as [[-> Hall] | (T1 & T2 & -> & Hbest & Hlt & H1 & H2)].
  - destruct (decide (d < b.2)) as [Hless|Hnless].
    + right. exists [], T. simpl in *. split; [done|]. split; [done|].
      split; [done|]. split; [|done]. intros c' Hc'. by apply elem_of_nil in Hc'.
    + left. split; [done|]. intros c' [->|Hc']%elem_of_cons.
      * exists d. split; [done | lia].
      * by apply Hall.
  - right. exists (c :: T1), T2. split; [done|]. split; [done|].
    assert (b'.2 < b.2 ∧ b'.2 < d) as [? ?].
    { destruct (decide (d < b.2)); simpl in *; lia. }
    split; [done|]. split; [|done].
    intros c' [->|Hc']%elem_of_cons; [eauto | by apply H1].
Qed.

End Trace.

(** * Fuel *)

Lemma axisValue_fails points indices i axis :
  fails_in (eq OutOfRange) (axisValue points indices i axis).
Proof.
  unfold axisValue.
  repeat (apply fails_in_bind; [apply get_fails | intros ? _]).
  apply get_fails.
Qed.

Lemma partitionStep_fails points indices left right axis :
  fails_in (eq OutOfRange) (partitionStep points indices left right axis).
Proof.
  unfold partitionStep.
  apply fails_in_bind; [apply axisValue_fails | intros pv _].
  apply fails_in_bind; [apply swap_fails | intros l1 _].
  apply fails_in_bind.
  - apply forLoop_fails. intros i [l s]. simpl.
    apply fails_in_bind; [apply axisValue_fails | intros v _].
    destruct (decide _); [|apply fails_in_Ok].
    apply fails_in_bind; [apply swap_fails | intros ? _; apply fails_in_Ok].
  - intros [l2 s] _.
    apply fails_in_bind; [apply swap_fails | intros ? _; apply fails_in_Ok].
Qed.

(** The [while] loop never needs more iterations than the size of the
    active range, whatever the array holds. *)
Lemma partitionLoop_fuel points axis k fuel : ∀ indices left right,
  right - left ≤ Z.of_nat fuel →
  fails_in (eq OutOfRange)
    (partitionLoop points fuel indices left right axis k).
Proof.
  induction fuel as [|fuel IH]; intros indices left right Hfuel.
  - simpl. rewrite decide_False by lia. apply fails_in_Ok.
  - simpl. destruct (decide (left < right)) as [Hlt|]; [|apply fails_in_Ok].
    apply fails_in_bind; [apply partitionStep_fails|].
    intros [l s] Hstep. apply partitionStep_shrinks in Hstep; [|lia].
    destruct (decide (s = k)); [apply fails_in_Ok|].
    destruct (decide (k < s)); apply IH; lia.
Qed.

(** * The result of a query over all the points *)

Lemma dist_lookup points query (i : nat) p :
  points !! i = Some p → dist points query (Z.of_nat i) = sqDist p query.
Proof. intros Hp. unfold dist, pointAt. by rewrite Nat2Z.id, Hp. Qed.

(** What a final state says once every point has been accounted for. *)
Lemma improved_all GREAT points query b :
  improved points query (seqZ 0 (Z.of_nat (length points))) (-1, GREAT) b →
  b.2 ≤ GREAT ∧
  (∀ p, p ∈ points → b.2 ≤ sqDist p query) ∧
  ((b = (-1, GREAT)) ∨
   (b.2 < GREAT ∧ 0 ≤ b.1 < Z.of_nat (length points) ∧
    ∃ p, points !! Z.to_nat b.1 = Some p ∧ sqDist p query = b.2)).
Proof.
  intros (Hle & Hall & Hch). split; [done|]. split.
  - intros p [i Hi]%list_elem_of_lookup.
    rewrite <- (dist_lookup points query i p Hi). apply Hall.
    apply elem_of_seqZ. apply lookup_lt_Some in Hi. lia.
  - destruct Hch as [->|(Hlt & Hin & Hd)]; [by left|]. right.
    apply elem_of_seqZ in Hin. split; [done|]. split; [lia|].
    destruct (lookup_lt_is_Some_2 points (Z.to_nat b.1)) as [p Hp]; [lia|].
    exists p. split; [done|].
    rewrite <- (dist_lookup points query _ p Hp), Z2Nat.id by lia. done.
Qed.

Lemma consistent_lengths leafSize points t (query : list Z) :
  KDTree_new leafSize points = Ok t →
  Z.of_nat (length query) = k_ t →
  Forall (λ p, length p = length query) points.
Proof.
  intros Hnew Hq. pose proof (KDTree_new_cases leafSize points) as Hc.
  rewrite Hnew in Hc. destruct Hc as (_ & Hk & Hcons & _).
  eapply Forall_impl; [exact Hcons|]. intros p Hp. simpl in Hp. lia.
Qed.

Lemma valid_root leafSize points t :
  KDTree_new leafSize points = Ok t →
  valid (root_ t) = true ↔ points ≠ [].
Proof.
  intros Hnew. pose proof (KDTree_new_cases leafSize points) as Hc.
  rewrite Hnew in Hc. by destruct Hc as (_ & _ & _ & _ & _ & _ & Hv).
Qed.


(** On a non-empty index and a query of the right length, both entry
    points return what the shared traversal found. *)
Lemma query_nonempty leafSize GREAT points t (query : list Z) :
  KDTree_new leafSize points = Ok t →
  points ≠ [] →
  Z.of_nat (length query) = k_ t →
  ∃ b, improved points query (seqZ 0 (Z.of_nat (length points)))
         (-1, GREAT) b ∧
       nearest GREAT t query = Ok b.1 ∧
       nearestDistSqr GREAT t query = Ok b.2.
Proof.
  intros Hnew Hne Hq.
  destruct (search_spec leafSize GREAT points t query Hnew Hq)
    as (b & Hsearch & Himp).
  apply (valid_root leafSize points t Hnew) in Hne.
  exists b. unfold nearest, nearestDistSqr. rewrite Hne. simpl.
  rewrite !decide_False by (intros Hneq; by apply Hneq).
  rewrite Hsearch. simpl. done.
Qed.

(** On the empty index, both entry points return their sentinel. *)
Lemma query_empty leafSize GREAT t query :
  KDTree_new leafSize [] = Ok t →
  nearest GREAT t query = Ok (-1) ∧ nearestDistSqr GREAT t query = Ok GREAT.
Proof. intros [= <-]. done. Qed.

(** * The scalar interface *)

(** ** Exact arithmetic satisfies the laws *)

#[global, refine] Instance exact_laws : ScalarLaws Z := {|
  rank := λ x, x;
  is_number := λ _, True;
  is_finite := λ _, True
|}.
Proof.
  all: simpl; intros; try done; try lia; try nia.
  destruct (Z.ltb_spec x y).
  - by rewrite bool_decide_eq_true_2.
  - rewrite bool_decide_eq_false_2; [done | lia].
Defined.

(** ** Fixed-point arithmetic satisfies the laws *)

#[global, refine] Instance fixed_laws : ScalarLaws FP.fixed := {|
  rank := FP.raw;
  is_number := λ _, True;
  is_finite := λ _, True
|}.
Proof.
  all: try done.
  all: intros; cbn [FP.ltb FP.zero FP.add FP.sub FP.mul FP.fixedPoint FP.raw];
    try lia.
  - destruct (Z.ltb_spec (FP.raw x) (FP.raw y)).
    + by rewrite bool_decide_eq_true_2.
    + rewrite bool_decide_eq_false_2; [done | lia].
  - apply Z.div_pos; nia.
  - apply Z.div_le_mono; nia.
  - f_equal. nia.
Defined.

(** ** The doubles satisfy the laws on the sample

    For the doubles the laws are the properties of IEEE-754 arithmetic
    rounding to nearest; they are not derived here, but evaluated on the
    machine's operations at the values of [double_samples]. *)

Lemma double_laws_sampled :
  lawsOn double_rank double_is_number double_is_finite double_samples = true.
Proof. vm_compute. reflexivity. Qed.

(** ** Keys compared through their ranks

    The construction only compares keys, so on numbers it is the
    construction of the first model on the ranks of the keys. *)

Lemma get_map {A B} (f : A → B) (l : list A) i :
  get (map f l) i = x ← get l i; Ok (f x).
Proof.
  unfold get. destruct (decide (0 ≤ i)); [|done].
  rewrite list_lookup_fmap. by destruct (l !! Z.to_nat i).
Qed.

Lemma forLoop_from_ext {St} n lo (body1 body2 : label → St → result St) s :
  (∀ i s, body1 i s = body2 i s) →
  forLoop_from n lo body1 s = forLoop_from n lo body2 s.
Proof.
  intros Hb. revert lo s. induction n as [|n IH]; intros lo s; [done|].
  simpl. rewrite Hb. destruct (body2 lo s); simpl; [apply IH | done].
Qed.

Lemma forLoop_ext {St} lo hi (body1 body2 : label → St → result St) s :
  (∀ i s, body1 i s = body2 i s) →
  forLoop lo hi body1 s = forLoop lo hi body2 s.
Proof. apply forLoop_from_ext. Qed.

Section Ranks.

Context {F : Type} `{ScalarLaws F}.

Variable points_ : list (list F).
Hypothesis Hfinite : finitePoints points_.

Lemma axisValue_ranks l i axis :
  axisValue (ranks points_) l i axis =
    v ← FP.axisValue points_ l i axis; Ok (rank v).
Proof.
  unfold axisValue, FP.axisValue, ranks.
  destruct (get l i) as [idx|]; simpl; [|done]. rewrite get_map.
  destruct (get points_ idx) as [p|]; simpl; [|done]. apply get_map.
Qed.

Lemma get_finite idx p ax x :
  get points_ idx = Ok p → get p ax = Ok x → is_finite x.
Proof.
  intros [_ Hp]%get_Ok [_ Hx]%get_Ok.
  eapply Forall_lookup_1; [|exact Hx].
  eapply (Forall_lookup_1 _ _ _ _ Hfinite Hp).
Qed.

Lemma axisValue_finite l i axis v :
  FP.axisValue points_ l i axis = Ok v → is_finite v.
Proof.
  unfold FP.axisValue. intros (idx & _ & (p & Hp & Hv)%bind_Ok)%bind_Ok.
  by eapply get_finite.
Qed.

Lemma partitionBody_ranks axis pv i st :
  is_number pv →
  FP.partitionBody points_ axis pv i st =
    partitionBody (ranks points_) axis (rank pv) i st.
Proof.
  intros Hpv. destruct st as [l s]. unfold FP.partitionBody, partitionBody.
  rewrite axisValue_ranks.
  destruct (FP.axisValue points_ l i axis) as [v|e] eqn:Hv; simpl; [|done].
  rewrite ltb_rank by (done || eapply finite_number, axisValue_finite, Hv).
  destruct (decide (rank v < rank pv)).
  - by rewrite bool_decide_eq_true_2.
  - by rewrite bool_decide_eq_false_2.
Qed.

Lemma partitionStep_ranks l left right axis :
  FP.partitionStep points_ l left right axis =
    partitionStep (ranks points_) l left right axis.
Proof.
  unfold FP.partitionStep, partitionStep. rewrite axisValue_ranks.
  destruct (FP.axisValue points_ l _ axis) as [pv|e] eqn:Hpv; simpl; [|done].
  destruct (swap l _ right) as [l1|]; simpl; [|done].
  rewrite (forLoop_ext _ _ _ (partitionBody (ranks points_) axis (rank pv)));
    [done|].
  intros i s. apply partitionBody_ranks.
  eapply finite_number, axisValue_finite, Hpv.
Qed.

Lemma partitionLoop_ranks fuel axis k : ∀ l left right,
  FP.partitionLoop points_ fuel l left right axis k =
    partitionLoop (ranks points_) fuel l left right axis k.
Proof.
  induction fuel as [|fuel IH]; intros l left right; simpl; [done|].
  destruct (decide (left < right)); [|done].
  rewrite partitionStep_ranks.
  destruct (partitionStep _ l left right axis) as [[l1 s]|]; simpl; [|done].
  destruct (decide (s = k)); [done|].
  destruct (decide (k < s)); apply IH.
Qed.

Lemma partitionIndices_ranks l start end_ axis k :
  FP.partitionIndices points_ l start end_ axis k =
    partitionIndices (ranks points_) l start end_ axis k.
Proof. apply partitionLoop_ranks. Qed.

Lemma buildTree_ranks leafSize k fuel : ∀ l start end_ depth,
  FP.buildTree leafSize points_ k fuel l start end_ depth =
    buildTree leafSize (ranks points_) k fuel l start end_ depth.
Proof.
  induction fuel as [|fuel IH]; intros l start end_ depth; simpl; [done|].
  destruct (decide (end_ - start ≤ 0)); [done|].
  destruct (decide (end_ - start ≤ leafSize)); [done|].
  destruct (decide (k = 0)); [done|].
  rewrite partitionIndices_ranks.
  destruct (partitionIndices _ l start end_ _ _) as [l1|]; simpl; [|done].
  destruct (get l1 _) as [idx|]; simpl; [|done].
  rewrite IH. destruct (buildTree _ _ _ fuel l1 _ _ _) as [[l2 tl]|];
    simpl; [|done].
  by rewrite IH.
Qed.

End Ranks.

(** ** Distances *)

Section SumSq.

Context {F : Type} `{ScalarLaws F}.

Local Abbreviation sq x := (FP.mul x x).
Local Abbreviation step :=
  (λ (sum : F) (xy : F * F),
     FP.add sum (FP.mul (FP.sub xy.1 xy.2) (FP.sub xy.1 xy.2))).

Lemma fold_sq_number (l : list (F * F)) : ∀ acc,
  Forall (λ xy, is_finite xy.1 ∧ is_finite xy.2) l →
  is_number acc → 0 ≤ rank acc →
  is_number (fold_left step l acc) ∧
  rank acc ≤ rank (fold_left step l acc) ∧
  ∀ xy, xy ∈ l →
    rank (sq (FP.sub xy.1 xy.2)) ≤ rank (fold_left step l acc).
Proof.
  induction l as [|[x y] l IH]; intros acc Hl Hacc Hpos; simpl.
  { split; [done|]. split; [lia|]. intros xy Hxy. by apply elem_of_nil in Hxy. }
  apply Forall_cons in Hl as [[Hx Hy] Hl]. simpl in Hx, Hy.
  pose proof (sub_number x y Hx Hy) as Hd.
  pose proof (sq_number _ Hd) as Hs. pose proof (sq_nonneg _ Hd) as Hs0.
  pose proof (add_number _ _ Hacc Hs Hpos Hs0) as Ha.
  pose proof (add_le_l _ _ Hacc Hs Hpos Hs0) as Hal.
  pose proof (add_le_r _ _ Hacc Hs Hpos Hs0) as Har.
  destruct (IH _ Hl Ha) as (Hn & Hle & Hall); [lia|].
  split; [done|]. split; [lia|].
  intros xy [->|Hxy]%elem_of_cons; [simpl; lia | by apply Hall].
Qed.

Lemma zip_finite (a b : list F) :
  Forall is_finite a → Forall is_finite b →
  Forall (λ xy, is_finite xy.1 ∧ is_finite xy.2) (zip a b).
Proof.
  intros Ha. revert b. induction Ha as [|x a Hx Ha IH]; intros b Hb; [done|].
  destruct Hb as [|y b Hy Hb]; [done|]. simpl. constructor; [done|].
  by apply IH.
Qed.

Lemma sumSq_number (a b : list F) :
  Forall is_finite a → Forall is_finite b →
  is_number (sumSq a b) ∧ 0 ≤ rank (sumSq a b).
Proof.
  intros Ha Hb. unfold sumSq.
  destruct (fold_sq_number (zip a b) FP.zero) as (Hn & Hle & _).
  - by apply zip_finite.
  - apply zero_number.
  - by rewrite zero_rank.
  - split; [done|]. by rewrite zero_rank in Hle.
Qed.

(** One coordinate alone is at most the whole distance. *)
Lemma sumSq_ge_coord (a b : list F) (ax : nat) x y :
  Forall is_finite a → Forall is_finite b →
  a !! ax = Some x → b !! ax = Some y →
  rank (sq (FP.sub x y)) ≤ rank (sumSq a b).
Proof.
  intros Ha Hb Hx Hy. unfold sumSq.
  destruct (fold_sq_number (zip a b) FP.zero) as (_ & _ & Hall).
  - by apply zip_finite.
  - apply zero_number.
  - by rewrite zero_rank.
  - apply (Hall (x, y)). apply list_elem_of_lookup. exists ax.
    rewrite lookup_zip_with, Hx. simpl. by rewrite Hy.
Qed.

Lemma sumSq_snoc (a b : list F) x y :
  length a = length b →
  sumSq (a ++ [x]) (b ++ [y]) = FP.add (sumSq a b) (sq (FP.sub x y)).
Proof.
  intros Hlen. unfold sumSq.
  rewrite zip_with_app by done. by rewrite fold_left_app.
Qed.

Lemma FP_distSqr_Ok k (a b : list F) :
  Z.of_nat (length a) = k → Z.of_nat (length b) = k →
  FP.distSqr k a b = Ok (sumSq a b).
Proof.
  intros Ha Hb. unfold FP.distSqr.
  destruct (forLoop_inv
    (λ d sum, sum = sumSq (take (Z.to_nat d) a) (take (Z.to_nat d) b))
    0 k
    (λ d sum,
       x ← get a d; y ← get b d;
       let diff := FP.sub x y in Ok (FP.add sum (FP.mul diff diff)))
    FP.zero) as (s & Hloop & Hs).
  - lia.
  - done.
  - intros d sum Hd ->.
    destruct (get_in_range a d) as [x Hx]; [lia|].
    destruct (get_in_range b d) as [y Hy]; [lia|].
    rewrite Hx, Hy. simpl. eexists. split; [done|].
    apply get_Ok in Hx as [_ Hx]. apply get_Ok in Hy as [_ Hy].
    replace (Z.to_nat (d + 1)) with (S (Z.to_nat d)) by lia.
    rewrite (take_S_r a _ x), (take_S_r b _ y) by done.
    rewrite sumSq_snoc; [done|]. rewrite !length_take. lia.
  - etrans; [exact Hloop|]. rewrite Hs. f_equal.
    rewrite !take_ge by lia. done.
Qed.

End SumSq.

(** ** Search *)

Section FSearch.

Context {F : Type} `{ScalarLaws F}.

Variable points_ : list (list F).
Variable k_ : label.
Variable query : list F.

Local Abbreviation fpointAt := (fpointAt points_).
Local Abbreviation fdist := (fdist points_ query).
Local Abbreviation fimproved := (fimproved points_ query).
Local Abbreviation inRange :=
  (λ idx : label, 0 ≤ idx < Z.of_nat (length points_)).

Lemma fimproved_nil b : is_number b.2 → fimproved [] b b.
Proof.
  intros Hb. split; [done|]. split; [lia|]. split; [|by left].
  intros i Hi. by apply elem_of_nil in Hi.
Qed.

Lemma fimproved_app S1 S2 b0 b1 b2 :
  fimproved S1 b0 b1 → fimproved S2 b1 b2 → fimproved (S1 ++ S2) b0 b2.
Proof.
  intros (_ & Hle1 & Hall1 & Hch1) (Hn & Hle2 & Hall2 & Hch2).
  split; [done|]. split; [lia|]. split.
  - intros i [Hi|Hi]%elem_of_app; [|by apply Hall2].
    specialize (Hall1 i Hi). lia.
  - destruct Hch2 as [->|(Hlt & Hin & Hd)].
    + destruct Hch1 as [->|(Hlt & Hin & Hd)]; [by left|].
      right. split; [done|]. split; [|done]. apply elem_of_app. by left.
    + right. split; [lia|]. split; [|done]. apply elem_of_app. by right.
Qed.

Lemma fimproved_skip S1 S2 b0 b1 :
  fimproved S1 b0 b1 → (∀ i, i ∈ S2 → rank b1.2 ≤ rank (fdist i)) →
  fimproved (S1 ++ S2) b0 b1.
Proof.
  intros (Hn & Hle1 & Hall1 & Hch1) Hfar. split; [done|]. split; [done|].
  split.
  - intros i [Hi|Hi]%elem_of_app; [by apply Hall1 | by apply Hfar].
  - destruct Hch1 as [->|(Hlt & Hin & Hd)]; [by left|].
    right. split; [done|]. split; [|done]. apply elem_of_app. by left.
Qed.

Lemma fimproved_equiv S S' b b' :
  (∀ i, i ∈ S ↔ i ∈ S') → fimproved S b b' → fimproved S' b b'.
Proof.
  intros HS (Hn & Hle & Hall & Hch). split; [done|]. split; [done|]. split.
  - intros i Hi. apply Hall, HS, Hi.
  - destruct Hch as [->|(Hlt & Hin & Hd)]; [by left|].
    right. split; [done|]. split; [|done]. by apply HS.
Qed.

(** The best distance is determined by the candidates, up to the
    order. *)
Lemma fimproved_unique S b b1 b2 :
  fimproved S b b1 → fimproved S b b2 → rank b1.2 = rank b2.2.
Proof.
  intros (_ & Hle1 & Hall1 & Hch1) (_ & Hle2 & Hall2 & Hch2).
  destruct Hch1 as [->|(Hlt1 & Hin1 & Hd1)],
    Hch2 as [->|(Hlt2 & Hin2 & Hd2)].
  - done.
  - specialize (Hall1 _ Hin2). rewrite Hd2 in Hall1. lia.
  - specialize (Hall2 _ Hin1). rewrite Hd1 in Hall2. lia.
  - specialize (Hall1 _ Hin2). specialize (Hall2 _ Hin1).
    rewrite Hd2 in Hall1. rewrite Hd1 in Hall2. lia.
Qed.

Hypothesis Hfinite : finitePoints points_.
Hypothesis Hqfinite : Forall is_finite query.
Hypothesis Hdim : Forall (λ p, Z.of_nat (length p) = k_) points_.
Hypothesis Hquery : Z.of_nat (length query) = k_.

Lemma get_fpointAt idx :
  inRange idx →
  get points_ idx = Ok (fpointAt idx) ∧
  Z.of_nat (length (fpointAt idx)) = k_ ∧
  Forall is_finite (fpointAt idx).
Proof.
  intros Hidx. destruct (get_in_range points_ idx Hidx) as [p Hp].
  apply get_Ok in Hp as Hp'. destruct Hp' as [_ Hp'].
  assert (fpointAt idx = p) as -> by (unfold fpointAt; by rewrite Hp').
  split; [done|]. split.
  - apply (Forall_lookup_1 _ _ _ _ Hdim Hp').
  - apply (Forall_lookup_1 _ _ _ _ Hfinite Hp').
Qed.

Lemma fdist_number idx :
  inRange idx → is_number (fdist idx) ∧ 0 ≤ rank (fdist idx).
Proof.
  intros Hidx. destruct (get_fpointAt idx Hidx) as (_ & _ & Hfin).
  by apply sumSq_number.
Qed.

Lemma FP_candidate_spec idx b :
  inRange idx →
  FP.candidate points_ k_ query idx b
  = Ok (if FP.ltb (fdist idx) b.2 then (idx, fdist idx) else b).
Proof.
  intros Hidx. destruct (get_fpointAt idx Hidx) as (Hget & Hlen & _).
  unfold FP.candidate. rewrite Hget. simpl.
  rewrite FP_distSqr_Ok by done. simpl. unfold fdist.
  by destruct (FP.ltb _ _).
Qed.

Lemma FP_candidate_improved idx b :
  inRange idx → is_number b.2 →
  fimproved [idx]
    b (if FP.ltb (fdist idx) b.2 then (idx, fdist idx) else b).
Proof.
  intros Hidx Hb. destruct (fdist_number idx Hidx) as [Hn _].
  rewrite ltb_rank by done.
  destruct (decide (rank (fdist idx) < rank b.2)) as [Hlt|Hge].
  - rewrite bool_decide_eq_true_2 by done.
    split; [done|]. split; [simpl; lia|]. split.
    + intros i ->%list_elem_of_singleton. simpl. lia.
    + right. simpl. split; [done|]. split; [|done].
      by apply list_elem_of_singleton.
  - rewrite bool_decide_eq_false_2 by done.
    split; [done|]. split; [lia|]. split; [|by left].
    intros i ->%list_elem_of_singleton. lia.
Qed.

Lemma FP_scanLeaf_spec inds : ∀ b,
  is_number b.2 →
  Forall inRange inds →
  ∃ b', FP.scanLeaf points_ k_ query inds b = Ok b' ∧ fimproved inds b b'.
Proof.
  induction inds as [|idx inds IH]; intros b Hb Hv.
  - exists b. split; [done | by apply fimproved_nil].
  - apply Forall_cons in Hv as [Hidx Hv]. simpl.
    rewrite FP_candidate_spec by done. simpl.
    pose proof (FP_candidate_improved idx b Hidx Hb) as Himp1.
    destruct (IH _ (proj1 Himp1) Hv) as (b' & Hscan & Himp).
    exists b'. split; [done|].
    apply (fimproved_app [idx] inds _ _ _ Himp1 Himp).
Qed.

(** The key the tree invariant speaks of is the rank of the coordinate
    the search reads. *)
Lemma key_ranks axis idx :
  inRange idx → 0 ≤ axis < k_ →
  ∃ x, fpointAt idx !! Z.to_nat axis = Some x ∧
       get (fpointAt idx) axis = Ok x ∧
       is_finite x ∧
       key (ranks points_) axis idx = rank x.
Proof.
  intros Hidx Hax. destruct (get_fpointAt idx Hidx) as (Hget & Hlen & Hfin).
  destruct (get_in_range (fpointAt idx) axis) as [x Hx]; [lia|].
  exists x. apply get_Ok in Hx as Hx'. destruct Hx' as [_ Hx'].
  split; [done|]. split; [done|].
  split; [apply (Forall_lookup_1 _ _ _ _ Hfin Hx')|].
  unfold key, pointKey, ranks. rewrite get_map, Hget. simpl.
  by rewrite get_map, Hx.
Qed.

Lemma FP_search_valid_guard (t : Node) b :
  (if valid t then FP.nearestSearch points_ k_ t query b else Ok b)
  = FP.nearestSearch points_ k_ t query b.
Proof. by destruct t. Qed.

(** The test that prunes the far side is sound: the square of the offset
    to the splitting plane is at most the distance of a point on the far
    side. *)
Lemma FP_prune_bound axis i qa pa pia :
  inRange i →
  query !! Z.to_nat axis = Some qa →
  fpointAt i !! Z.to_nat axis = Some pia →
  is_finite qa → is_finite pa → is_finite pia →
  (rank (FP.sub qa pa) < 0 ∧ rank pa ≤ rank pia) ∨
  (0 ≤ rank (FP.sub qa pa) ∧ rank pia ≤ rank pa) →
  rank (FP.mul (FP.sub qa pa) (FP.sub qa pa)) ≤ rank (fdist i).
Proof.
  intros Hi Hqa Hpia Fq Fp Fi Hside.
  destruct (get_fpointAt i Hi) as (_ & _ & Hfin).
  pose proof (sumSq_ge_coord _ _ _ _ _ Hfin Hqfinite Hpia Hqa) as Hge.
  etrans; [|exact Hge].
  pose proof (sub_number qa pa Fq Fp) as Nd.
  pose proof (sub_number pa qa Fp Fq) as Ne.
  pose proof (sub_number pia qa Fi Fq) as Ng.
  pose proof (sub_number qa pia Fq Fi) as Ng'.
  pose proof (sub_opp qa pa Fq Fp) as He.
  destruct Hside as [[Hneg Hle]|[Hpos Hle]].
  - pose proof (sub_mono qa pa pia Fq Fp Fi Hle) as Hm.
    rewrite <- (sq_opp _ _ Nd Ne He).
    apply sq_mono; [done | done | lia | done].
  - pose proof (sub_mono qa pia pa Fq Fi Fp Hle) as Hm.
    pose proof (sub_opp pia qa Fi Fq) as Hg.
    rewrite (sq_opp _ _ Ng' Ng) by lia.
    apply sq_mono; [done | done | lia | lia].
Qed.

Lemma FP_nearestSearch_spec leafSize (t : Node) : ∀ depth b,
  is_number b.2 →
  treeInv leafSize (ranks points_) k_ depth t →
  Forall inRange (treeIndices t) →
  ∃ b', FP.nearestSearch points_ k_ t query b = Ok b' ∧
        fimproved (treeIndices t) b b'.
Proof.
  induction t as [|leaf p ax l IHl r IHr]; intros depth b Hb Hinv Hv.
  { exists b. split; [done | by apply fimproved_nil]. }
  simpl in *. destruct (decide (leaf ≠ [])) as [Hleaf|Hint].
  { by apply FP_scanLeaf_spec. }
  destruct Hinv as (Hax & _ & Hleft & Hright & Hinvl & Hinvr).
  apply Forall_cons in Hv as [Hp Hv]. apply Forall_app in Hv as [Hvl Hvr].
  rewrite FP_candidate_spec by done. simpl.
  pose proof (FP_candidate_improved p b Hp Hb) as Himp1.
  set (b1 := if FP.ltb (fdist p) b.2 then (p, fdist p) else b) in *.
  destruct (get_in_range query ax) as [qa Hqa]; [lia|].
  destruct (get_fpointAt p Hp) as (Hgetp & _ & _).
  destruct (key_ranks ax p Hp Hax) as (pa & _ & Hgetk & Fp & Hkp).
  rewrite Hqa. cbn [mbind result_bind]. rewrite Hgetp. cbn [mbind result_bind].
  rewrite Hgetk. cbn [mbind result_bind].
  apply get_Ok in Hqa as [_ Hqa].
  pose proof (Forall_lookup_1 _ _ _ _ Hqfinite Hqa) as Fq.
  pose proof (sub_number qa pa Fq Fp) as Nd.
  rewrite (ltb_rank (FP.sub qa pa) FP.zero Nd zero_number), zero_rank.
  assert (∀ i (b2 : label * F), inRange i → is_number b2.2 →
    i ∈ treeIndices l ++ treeIndices r →
    (rank (FP.sub qa pa) < 0 → i ∈ treeIndices r) →
    (0 ≤ rank (FP.sub qa pa) → i ∈ treeIndices l) →
    FP.ltb (FP.mul (FP.sub qa pa) (FP.sub qa pa)) b2.2 = false →
    rank b2.2 ≤ rank (fdist i)) as Hprune.
  { intros i b2 Hi Nb2 _ Hr Hl Hfar.
    rewrite ltb_rank in Hfar by (done || by apply sq_number).
    apply bool_decide_eq_false_1 in Hfar.
    destruct (key_ranks ax i Hi Hax) as (pia & Hpia & _ & Fi & Hki).
    etrans; [|apply (FP_prune_bound ax i qa pa pia); try done]; [lia|].
    destruct (decide (rank (FP.sub qa pa) < 0)) as [Hneg|Hpos].
    - left. split; [done|]. rewrite <- Hkp, <- Hki. by apply Hright, Hr.
    - right. split; [lia|]. rewrite <- Hkp, <- Hki. apply Hleft, Hl. lia. }
  destruct (decide (rank (FP.sub qa pa) < 0)) as [Hneg|Hpos].
  - rewrite !bool_decide_eq_true_2 by done.
    rewrite FP_search_valid_guard.
    destruct (IHl (depth + 1) b1 (proj1 Himp1) Hinvl Hvl)
      as (b2 & -> & Himp2). simpl.
    pose proof (fimproved_app _ _ _ _ _ Himp1 Himp2) as Himp12.
    destruct (valid r) eqn:Hvalid.
    + destruct (FP.ltb _ b2.2) eqn:Hfar.
      * destruct (IHr (depth + 1) b2 (proj1 Himp2) Hinvr Hvr)
          as (b3 & -> & Himp3).
        exists b3. split; [done|].
        pose proof (fimproved_app _ _ _ _ _ Himp12 Himp3) as Himp.
        by rewrite <- app_assoc in Himp.
      * exists b2. split; [done|].
        pose proof (fimproved_skip _ (treeIndices r) _ _ Himp12) as Himp.
        rewrite <- app_assoc in Himp. apply Himp. intros i Hi.
        rewrite Forall_forall in Hvr.
        apply Hprune; [by apply Hvr | apply Himp2 | | done | lia | done].
        apply elem_of_app. by right.
    + destruct r; [|done]. exists b2. split; [done|].
      simpl. by rewrite app_nil_r.
  - rewrite !bool_decide_eq_false_2 by done.
    rewrite FP_search_valid_guard.
    destruct (IHr (depth + 1) b1 (proj1 Himp1) Hinvr Hvr)
      as (b2 & -> & Himp2). simpl.
    pose proof (fimproved_app _ _ _ _ _ Himp1 Himp2) as Himp12.
    assert (∀ b', fimproved (([p] ++ treeIndices r) ++ treeIndices l) b b' →
      fimproved (p :: treeIndices l ++ treeIndices r) b b') as Hswap.
    { intros b'. apply fimproved_equiv. intros i.
      repeat first
        [rewrite elem_of_cons | rewrite elem_of_app | rewrite elem_of_nil].
      tauto. }
    destruct (valid l) eqn:Hvalid.
    + destruct (FP.ltb _ b2.2) eqn:Hfar.
      * destruct (IHl (depth + 1) b2 (proj1 Himp2) Hinvl Hvl)
          as (b3 & -> & Himp3).
        exists b3. split; [done|].
        apply Hswap. by apply (fimproved_app _ _ _ _ _ Himp12 Himp3).
      * exists b2. split; [done|].
        apply Hswap, fimproved_skip; [done|]. intros i Hi.
        rewrite Forall_forall in Hvl.
        apply Hprune; [by apply Hvl | apply Himp2 | | lia | done | done].
        apply elem_of_app. by left.
    + destruct l; [|done]. exists b2. split; [done|].
      apply Hswap. simpl. by rewrite app_nil_r.
Qed.

End FSearch.

(** ** The constructor and the queries *)

Section FQueries.

Context {F : Type} `{ScalarLaws F}.

Lemma length_ranks (points : list (list F)) :
  length (ranks points) = length points.
Proof. apply length_map. Qed.

Lemma checkDimensions_ranks (points : list (list F)) k :
  FP.checkDimensions points k = checkDimensions (ranks points) k.
Proof.
  induction points as [|p points IH]; simpl; [done|].
  rewrite length_map. by destruct (decide _).
Qed.

(** On finite points the constructor builds the tree the first model
    builds on the ranks of the keys. *)
Lemma FP_KDTree_new_ranks leafSize (points : list (list F)) t :
  finitePoints points →
  FP.KDTree_new leafSize points = Ok t →
  FP.points_ t = points ∧
  KDTree_new leafSize (ranks points)
    = Ok (mkKDTree (FP.root_ t) (ranks points) (FP.k_ t)).
Proof.
  intros Hfin. unfold FP.KDTree_new, KDTree_new.
  destruct points as [|p0 points']; [by intros [= <-]|].
  change (ranks (p0 :: points')) with (map rank p0 :: ranks points').
  cbv beta iota. rewrite length_map.
  change (map rank p0 :: ranks points') with (ranks (p0 :: points')).
  rewrite checkDimensions_ranks, (buildTree_ranks _ Hfin).
  rewrite !length_seqZ, length_ranks.
  destruct (checkDimensions _ _); cbn [mbind result_bind]; [|done].
  destruct (buildTree _ _ _ _ _ _ _ _) as [[l root]|];
    cbn [mbind result_bind]; [|done].
  by intros [= <-].
Qed.

Lemma FP_KDTree_new_spec leafSize (points : list (list F)) t :
  finitePoints points →
  FP.KDTree_new leafSize points = Ok t →
  FP.points_ t = points ∧
  Forall (λ p, Z.of_nat (length p) = FP.k_ t) points ∧
  treeInv leafSize (ranks points) (FP.k_ t) 0 (FP.root_ t) ∧
  treeIndices (FP.root_ t) ≡ₚ seqZ 0 (Z.of_nat (length points)) ∧
  (valid (FP.root_ t) = true ↔ points ≠ []).
Proof.
  intros Hfin Hnew.
  destruct (FP_KDTree_new_ranks leafSize points t Hfin Hnew) as [Hpts Hsim].
  pose proof (KDTree_new_cases leafSize (ranks points)) as Hc.
  rewrite Hsim in Hc. simpl in Hc.
  destruct Hc as (_ & Hk & Hcons & _ & Hinv & Hidx & Hv).
  rewrite length_ranks in Hidx.
  split; [done|]. split; [|split; [done|split; [done|]]].
  - unfold consistent in Hcons. rewrite <- Hk in Hcons.
    unfold ranks in Hcons. apply Forall_fmap in Hcons.
    eapply Forall_impl; [exact Hcons|]. intros p Hp. simpl in Hp.
    by rewrite length_map in Hp.
  - rewrite Hv. unfold ranks. by destruct points.
Qed.

Lemma FP_search_spec leafSize GREAT (points : list (list F)) t query :
  is_number GREAT → finitePoints points → Forall is_finite query →
  FP.KDTree_new leafSize points = Ok t →
  Z.of_nat (length query) = FP.k_ t →
  ∃ b, FP.search GREAT t query = Ok b ∧
       fimproved points query (seqZ 0 (Z.of_nat (length points)))
         (-1, GREAT) b.
Proof.
  intros HG Hfin Hq Hnew Hlen.
  destruct (FP_KDTree_new_spec leafSize points t Hfin Hnew)
    as (Hpts & Hdim & Hinv & Hidx & _).
  destruct (FP_nearestSearch_spec points (FP.k_ t) query Hfin Hq Hdim Hlen
    leafSize (FP.root_ t) 0 (-1, GREAT) HG Hinv) as (b & Hsearch & Himp).
  { apply Forall_forall. intros i Hi. rewrite Hidx in Hi.
    apply elem_of_seqZ in Hi. lia. }
  exists b. unfold FP.search. rewrite Hpts. split; [done|].
  eapply fimproved_equiv; [|exact Himp]. intros i. by rewrite Hidx.
Qed.

Lemma fdist_lookup (points : list (list F)) query (i : nat) p :
  points !! i = Some p → fdist points query (Z.of_nat i) = sumSq p query.
Proof. intros Hp. unfold fdist, fpointAt. by rewrite Nat2Z.id, Hp. Qed.

Lemma FP_bruteLoop_spec (points : list (list F)) query :
  finitePoints points → Forall is_finite query →
  Forall (λ p, length p = length query) points →
  ∀ pts i st,
    is_number st.2 →
    0 ≤ i → drop (Z.to_nat i) points = pts →
    ∃ st', FP.bruteLoop pts i query st = Ok st' ∧
           fimproved points query (seqZ i (Z.of_nat (length pts))) st st'.
Proof.
  intros Hfin Hq Hlen pts.
  induction pts as [|p pts IH]; intros i st Hst Hi Hdrop.
  { exists st. split; [done | by apply fimproved_nil]. }
  assert (points !! Z.to_nat i = Some p) as Hp.
  { rewrite <- (Nat.add_0_r (Z.to_nat i)), <- lookup_drop. by rewrite Hdrop. }
  assert (0 ≤ i < Z.of_nat (length points)) as Hrange.
  { apply lookup_lt_Some in Hp. lia. }
  cbn [FP.bruteLoop].
  change (forLoop 0 (Z.of_nat (length query)) _ FP.zero)
    with (FP.distSqr (Z.of_nat (length query)) p query).
  rewrite FP_distSqr_Ok;
    [|f_equal; apply (Forall_lookup_1 _ _ _ _ Hlen Hp)|done].
  cbn [mbind result_bind].
  replace (sumSq p query) with (fdist points query i)
    by (rewrite <- (Z2Nat.id i) by lia; by apply fdist_lookup).
  assert (Forall (λ p, Z.of_nat (length p) = Z.of_nat (length query)) points)
    as Hdim.
  { eapply Forall_impl; [exact Hlen|]. intros p' Hp'. simpl in Hp'. lia. }
  pose proof (FP_candidate_improved points (Z.of_nat (length query)) query
    Hfin Hq Hdim i st Hrange Hst) as Himp1.
  destruct (IH (i + 1) _ (proj1 Himp1)) as (st' & Hloop & Himp); [lia| |].
  { replace (Z.to_nat (i + 1)) with (S (Z.to_nat i)) by lia.
    erewrite drop_S in Hdrop by done. by injection Hdrop. }
  exists st'. split; [done|].
  rewrite seqZ_cons by (simpl; lia).
  replace (Z.pred (Z.of_nat (length (p :: pts))))
    with (Z.of_nat (length pts)) by (simpl; lia).
  apply (fimproved_app points query [i] _ _ _ _ Himp1 Himp).
Qed.

Lemma FP_bruteNearest_spec GREAT (points : list (list F)) query :
  is_number GREAT → finitePoints points → Forall is_finite query →
  Forall (λ p, length p = length query) points →
  ∃ b, FP.bruteNearest GREAT points query = Ok b ∧
       fimproved points query (seqZ 0 (Z.of_nat (length points)))
         (-1, GREAT) b.
Proof.
  intros HG Hfin Hq Hlen. by apply FP_bruteLoop_spec.
Qed.

(** What a final state says once every point has been accounted for. *)
Lemma fimproved_all GREAT (points : list (list F)) query b :
  fimproved points query (seqZ 0 (Z.of_nat (length points))) (-1, GREAT) b →
  is_number b.2 ∧
  rank b.2 ≤ rank GREAT ∧
  (∀ p, p ∈ points → rank b.2 ≤ rank (sumSq p query)) ∧
  ((b = (-1, GREAT)) ∨
   (rank b.2 < rank GREAT ∧ 0 ≤ b.1 < Z.of_nat (length points) ∧
    ∃ p, points !! Z.to_nat b.1 = Some p ∧ sumSq p query = b.2)).
Proof.
  intros (Hn & Hle & Hall & Hch). split; [done|]. split; [done|]. split.
  - intros p [i Hi]%list_elem_of_lookup.
    rewrite <- (fdist_lookup points query i p Hi). apply Hall.
    apply elem_of_seqZ. apply lookup_lt_Some in Hi. lia.
  - destruct Hch as [->|(Hlt & Hin & Hd)]; [by left|]. right.
    apply elem_of_seqZ in Hin. split; [done|]. split; [lia|].
    destruct (lookup_lt_is_Some_2 points (Z.to_nat b.1)) as [p Hp]; [lia|].
    exists p. split; [done|].
    rewrite <- (fdist_lookup points query _ p Hp), Z2Nat.id by lia. done.
Qed.

(** On a non-empty index and a query of the right length, both entry
    points return what the shared traversal found. *)
Lemma FP_query_nonempty leafSize GREAT (points : list (list F)) t query :
  is_number GREAT → finitePoints points → Forall is_finite query →
  FP.KDTree_new leafSize points = Ok t →
  points ≠ [] →
  Z.of_nat (length query) = FP.k_ t →
  ∃ b, fimproved points query (seqZ 0 (Z.of_nat (length points)))
         (-1, GREAT) b ∧
       FP.nearest GREAT t query = Ok b.1 ∧
       FP.nearestDistSqr GREAT t query = Ok b.2.
Proof.
  intros HG Hfin Hq Hnew Hne Hlen.
  destruct (FP_search_spec leafSize GREAT points t query HG Hfin Hq Hnew Hlen)
    as (b & Hsearch & Himp).
  destruct (FP_KDTree_new_spec leafSize points t Hfin Hnew)
    as (_ & _ & _ & _ & Hv).
  apply Hv in Hne.
  exists b. unfold FP.nearest, FP.nearestDistSqr. rewrite Hne. simpl.
  rewrite !decide_False by (intros Hneq; by apply Hneq).
  rewrite Hsearch. simpl. done.
Qed.

Lemma FP_query_empty leafSize (GREAT : F) t query :
  FP.KDTree_new leafSize [] = Ok t →
  FP.nearest GREAT t query = Ok (-1) ∧
  FP.nearestDistSqr GREAT t query = Ok GREAT.
Proof. intros [= <-]. done. Qed.

Lemma FP_lengths leafSize (points : list (list F)) t (query : list F) :
  finitePoints points →
  FP.KDTree_new leafSize points = Ok t →
  Z.of_nat (length query) = FP.k_ t →
  Forall (λ p, length p = length query) points.
Proof.
  intros Hfin Hnew Hq.
  destruct (FP_KDTree_new_spec leafSize points t Hfin Hnew)
    as (_ & Hdim & _).
  eapply Forall_impl; [exact Hdim|]. intros p Hp. simpl in Hp. lia.
Qed.

(** Comparisons of numbers, read on the ranks. *)
Lemma ltb_false_rank (x y : F) :
  is_number x → is_number y → FP.ltb x y = false ↔ rank y ≤ rank x.
Proof.
  intros Hx Hy. rewrite ltb_rank by done.
  rewrite bool_decide_eq_false. lia.
Qed.

Lemma ltb_true_rank (x y : F) :
  is_number x → is_number y → FP.ltb x y = true ↔ rank x < rank y.
Proof.
  intros Hx Hy. rewrite ltb_rank by done. by rewrite bool_decide_eq_true.
Qed.

End FQueries.

(** * Properties *)

(** C1, as stated, fails.  With one point at squared distance [10^16] and
    [GREAT = 10^15], [nearestDistSqr] returns [GREAT], which is not the
    squared distance of any point.  And with a NaN coordinate the search
    and the exhaustive scan differ: on the points [[5], [1], [NaN]], leaf
    size 1 and the query [[1]], the search returns [16] and the scan
    [0]. *)
Lemma nearestDistSqr_not_the_minimum :
  (∃ t,
     FP.KDTree_new 1 [[100000000%float]] = Ok t ∧
     Z.of_nat (length [0%float]) = FP.k_ t ∧
     FP.nearestDistSqr 1000000000000000%float t [0%float]
       = Ok 1000000000000000%float ∧
     FP.distSqr (FP.k_ t) [100000000%float] [0%float]
       = Ok 10000000000000000%float) ∧
  (∃ t,
     FP.KDTree_new 1 [[5%float]; [1%float]; [nan]] = Ok t ∧
     Z.of_nat (length [1%float]) = FP.k_ t ∧
     FP.nearestDistSqr 1000000000000000%float t [1%float] = Ok 16%float ∧
     FP.bruteNearest 1000000000000000%float
       [[5%float]; [1%float]; [nan]] [1%float] = Ok (1, 0%float)).
Proof.
  split; eexists; (split; [vm_compute; reflexivity|]); vm_compute; done.
Qed.

(** C1, amended.  Let the coordinates of the points and of the query be
    finite numbers and [GREAT] a number.  For every point set on which an
    index has been built and every query of length [k], the value [d]
    returned by [nearestDistSqr] is, as a number, the one the exhaustive
    scan [bruteNearest] returns, and it is the least of [GREAT] and of
    the values [distSqr] computes for the points: no point's distance is
    less than [d], [GREAT] is not less than [d], and [d] is [GREAT] or the
    distance of some point. *)
Theorem nearestDistSqr_exhaustive_scan {F : Type} `{ScalarLaws F}
    leafSize (GREAT : F) points query t :
  is_number GREAT → finitePoints points → Forall is_finite query →
  FP.KDTree_new leafSize points = Ok t →
  Z.of_nat (length query) = FP.k_ t →
  ∃ b d,
    FP.bruteNearest GREAT points query = Ok b ∧
    FP.nearestDistSqr GREAT t query = Ok d ∧
    sameValue d b.2 ∧
    (∀ p, p ∈ points →
       ∃ dp, FP.distSqr (FP.k_ t) p query = Ok dp ∧ FP.ltb dp d = false) ∧
    FP.ltb GREAT d = false ∧
    (d = GREAT ∨ ∃ p, p ∈ points ∧ FP.distSqr (FP.k_ t) p query = Ok d).
Proof.
  intros HG Hfin Hq Hnew Hlen.
  pose proof (FP_lengths leafSize points t query Hfin Hnew Hlen) as Hlens.
  destruct (FP_bruteNearest_spec GREAT points query HG Hfin Hq Hlens)
    as (b & Hbrute & Himpb).
  assert (∃ b', fimproved points query (seqZ 0 (Z.of_nat (length points)))
                  (-1, GREAT) b' ∧
                FP.nearestDistSqr GREAT t query = Ok b'.2)
    as (b' & Himp & Hkd).
  { destruct points as [|p0 points'].
    - exists (-1, GREAT). split; [by apply fimproved_nil|].
      by destruct (FP_query_empty leafSize GREAT t query Hnew) as [_ ->].
    - destruct (FP_query_nonempty leafSize GREAT (p0 :: points') t query)
        as (b' & Himp & _ & Hkd); [done..|]. by exists b'. }
  exists b, b'.2. split; [done|]. split; [done|].
  pose proof (fimproved_unique _ _ _ _ _ _ Himp Himpb) as Hsame.
  destruct (fimproved_all GREAT points query b' Himp)
    as (Hn & Hle & Hall & Hch).
  destruct Himpb as (Hnb & _).
  split; [|split; [|split]].
  - split; apply ltb_false_rank; (done || lia).
  - intros p Hp. exists (sumSq p query). split.
    + rewrite Forall_forall in Hlens.
      apply FP_distSqr_Ok; [|done]. rewrite <- Hlen. f_equal. by apply Hlens.
    + apply ltb_false_rank; [|done|by apply Hall].
      apply sumSq_number; [|done].
      unfold finitePoints in Hfin. rewrite Forall_forall in Hfin.
      by apply Hfin.
  - by apply ltb_false_rank.
  - destruct Hch as [->|(_ & _ & p & Hp & Hd)]; [by left|].
    right. exists p. split; [by eapply list_elem_of_lookup_2|].
    rewrite <- Hd. apply FP_distSqr_Ok; [|done].
    rewrite <- Hlen. f_equal. apply (Forall_lookup_1 _ _ _ _ Hlens Hp).
Qed.

Lemma nearestDistSqr_exhaustive_scan_witness :
  ∃ t,
    FP.KDTree_new 1
      (map (map FP.Fixed) [[512; 1024]; [1536; 2048]; [0; 0]; [2560; 512];
                           [1024; 1024]; [3584; 3584]; [512; 512]])
      = Ok t ∧
    ∃ b d,
      FP.bruteNearest (FP.Fixed 1024000)
        (map (map FP.Fixed) [[512; 1024]; [1536; 2048]; [0; 0]; [2560; 512];
                             [1024; 1024]; [3584; 3584]; [512; 512]])
        [FP.Fixed 2048; FP.Fixed 1000] = Ok b ∧
      FP.nearestDistSqr (FP.Fixed 1024000) t [FP.Fixed 2048; FP.Fixed 1000]
        = Ok d ∧
      sameValue d b.2 ∧
      (∀ p,
         p ∈ map (map FP.Fixed)
               [[512; 1024]; [1536; 2048]; [0; 0]; [2560; 512];
                [1024; 1024]; [3584; 3584]; [512; 512]] →
         ∃ dp,
           FP.distSqr (FP.k_ t) p [FP.Fixed 2048; FP.Fixed 1000] = Ok dp ∧
           FP.ltb dp d = false) ∧
      FP.ltb (FP.Fixed 1024000) d = false ∧
      (d = FP.Fixed 1024000 ∨
       ∃ p,
         p ∈ map (map FP.Fixed)
               [[512; 1024]; [1536; 2048]; [0; 0]; [2560; 512];
                [1024; 1024]; [3584; 3584]; [512; 512]] ∧
         FP.distSqr (FP.k_ t) p [FP.Fixed 2048; FP.Fixed 1000] = Ok d).
Proof.
  eexists. split; [vm_compute; reflexivity|].
  apply (nearestDistSqr_exhaustive_scan 1 (FP.Fixed 1024000)).
  - exact I.
  - simpl. repeat constructor.
  - repeat constructor.
  - vm_compute. reflexivity.
  - reflexivity.
Defined.

(** C2, as stated, fails: when no point is closer than [GREAT] (here one
    point at squared distance [10^16] with [GREAT = 10^15]), and likewise
    on the empty index, [nearest] returns [-1], which references no
    point.  With a NaN coordinate it does so although a point is at
    distance [0]. *)
Lemma nearest_references_no_point :
  (∃ t,
     KDTree_new 1 [[100000000]] = Ok t ∧
     Z.of_nat (length [0]) = k_ t ∧
     nearest 1000000000000000 t [0] = Ok (-1) ∧
     nearestDistSqr 1000000000000000 t [0] = Ok 1000000000000000 ∧
     get (points_ t) (-1) = Err OutOfRange) ∧
  (∃ t,
     KDTree_new 1 [] = Ok t ∧
     Z.of_nat (length (@nil Z)) = k_ t ∧
     nearest 1000000000000000 t [] = Ok (-1) ∧
     get (points_ t) (-1) = Err OutOfRange) ∧
  (∃ t,
     FP.KDTree_new 1 [[0%float]; [nan]] = Ok t ∧
     Z.of_nat (length [0%float]) = FP.k_ t ∧
     FP.nearest 1000000000000000%float t [0%float] = Ok (-1) ∧
     FP.nearestDistSqr 1000000000000000%float t [0%float]
       = Ok 1000000000000000%float ∧
     FP.distSqr (FP.k_ t) [0%float] [0%float] = Ok 0%float ∧
     get (FP.points_ t) (-1) = Err OutOfRange).
Proof.
  repeat split; eexists; (split; [vm_compute; reflexivity|]);
    vm_compute; done.
Qed.

(** C2, amended.  Let the coordinates of the points and of the query be
    finite numbers and [GREAT] a number.  For every point set on which an
    index has been built and every query of length [k], [nearest] and
    [nearestDistSqr] return the two components of the result of the same
    traversal: either the value returned by [nearestDistSqr] is less than
    [GREAT], and the index returned by [nearest] references a point whose
    [distSqr] to the query is that value; or no point is at a distance
    less than [GREAT] (in particular on the empty index), and they return
    the sentinels [-1] and [GREAT]. *)
Theorem nearest_agrees_with_nearestDistSqr {F : Type} `{ScalarLaws F}
    leafSize (GREAT : F) points query t :
  is_number GREAT → finitePoints points → Forall is_finite query →
  FP.KDTree_new leafSize points = Ok t →
  Z.of_nat (length query) = FP.k_ t →
  ∃ i d,
    FP.nearest GREAT t query = Ok i ∧
    FP.nearestDistSqr GREAT t query = Ok d ∧
    ((FP.ltb d GREAT = true ∧
      ∃ p, get (FP.points_ t) i = Ok p ∧
           FP.distSqr (FP.k_ t) p query = Ok d) ∨
     (i = -1 ∧ d = GREAT ∧
      ∀ p, p ∈ points →
        ∃ dp, FP.distSqr (FP.k_ t) p query = Ok dp ∧
              FP.ltb dp GREAT = false)).
Proof.
  intros HG Hfin Hq Hnew Hlen. destruct points as [|p0 points'].
  { destruct (FP_query_empty leafSize GREAT t query Hnew) as [-> ->].
    exists (-1), GREAT. split; [done|]. split; [done|]. right.
    split; [done|]. split; [done|]. intros p Hp. by apply elem_of_nil in Hp. }
  pose proof (FP_lengths leafSize _ t query Hfin Hnew Hlen) as Hlens.
  destruct (FP_query_nonempty leafSize GREAT (p0 :: points') t query)
    as (b & Himp & -> & ->); [done..|].
  exists b.1, b.2. split; [done|]. split; [done|].
  destruct (fimproved_all GREAT _ query b Himp)
    as (Hn & _ & Hall & [->|(Hlt & Hrange & p & Hp & Hd)]).
  { right. split; [done|]. split; [done|]. intros p Hp.
    exists (sumSq p query). split.
    - rewrite Forall_forall in Hlens.
      apply FP_distSqr_Ok; [|done]. rewrite <- Hlen. f_equal. by apply Hlens.
    - apply ltb_false_rank; [|done|by apply Hall].
      apply sumSq_number; [|done].
      unfold finitePoints in Hfin. rewrite Forall_forall in Hfin.
      by apply Hfin. }
  left. split; [by apply ltb_true_rank|]. exists p.
  destruct (FP_KDTree_new_spec leafSize _ t Hfin Hnew) as (-> & _).
  split; [apply get_Ok; split; [lia | done]|].
  rewrite <- Hd. apply FP_distSqr_Ok; [|done].
  rewrite <- Hlen. f_equal. apply (Forall_lookup_1 _ _ _ _ Hlens Hp).
Qed.

Lemma nearest_agrees_with_nearestDistSqr_witness :
  ∃ t,
    FP.KDTree_new 1 [[1; 2]; [3; 4]; [0; 0]; [5; 1]] = Ok t ∧
    ∃ i d,
      FP.nearest 1000 t [4; 2] = Ok i ∧
      FP.nearestDistSqr 1000 t [4; 2] = Ok d ∧
      ((FP.ltb d 1000 = true ∧
        ∃ p, get (FP.points_ t) i = Ok p ∧
             FP.distSqr (FP.k_ t) p [4; 2] = Ok d) ∨
       (i = -1 ∧ d = 1000 ∧
        ∀ p, p ∈ [[1; 2]; [3; 4]; [0; 0]; [5; 1]] →
          ∃ dp, FP.distSqr (FP.k_ t) p [4; 2] = Ok dp ∧
                FP.ltb dp 1000 = false)).
Proof.
  eexists. split; [vm_compute; reflexivity|].
  apply (nearest_agrees_with_nearestDistSqr 1 1000).
  - exact I.
  - repeat constructor.
  - repeat constructor.
  - vm_compute. reflexivity.
  - reflexivity.
Defined.

(** C8, as stated, fails: a non-empty index returns [-1] when no point is
    closer than [GREAT] (here two points at squared distance [10^16] with
    [GREAT = 10^15]), and with a NaN coordinate even when a point is at
    distance [0]. *)
Lemma nearest_sentinel_on_nonempty_index :
  (∃ t,
     KDTree_new 1 [[100000000; 0]; [0; 100000000]] = Ok t ∧
     valid (root_ t) = true ∧
     Z.of_nat (length [0; 0]) = k_ t ∧
     nearest 1000000000000000 t [0; 0] = Ok (-1)) ∧
  (∃ t,
     FP.KDTree_new 1 [[0%float]; [nan]] = Ok t ∧
     valid (FP.root_ t) = true ∧
     Z.of_nat (length [0%float]) = FP.k_ t ∧
     FP.nearest 1000000000000000%float t [0%float] = Ok (-1) ∧
     FP.distSqr (FP.k_ t) [0%float] [0%float] = Ok 0%float).
Proof.
  split; eexists; (split; [vm_compute; reflexivity|]); vm_compute; done.
Qed.

(** C8, amended.  Let the coordinates of the points and of the query be
    finite numbers and [GREAT] a number.  For every index and every query
    of length [k], [nearest] returns a valid index into the original
    point sequence when some point is at a distance less than [GREAT],
    and the sentinel [-1] otherwise, that is when the index is empty or
    no point is at a distance less than [GREAT]. *)
Theorem nearest_index_or_sentinel {F : Type} `{ScalarLaws F}
    leafSize (GREAT : F) points query t :
  is_number GREAT → finitePoints points → Forall is_finite query →
  FP.KDTree_new leafSize points = Ok t →
  Z.of_nat (length query) = FP.k_ t →
  ∃ i,
    FP.nearest GREAT t query = Ok i ∧
    ((0 ≤ i < Z.of_nat (length points) ∧
      ∃ p dp, p ∈ points ∧ FP.distSqr (FP.k_ t) p query = Ok dp ∧
              FP.ltb dp GREAT = true) ∨
     (i = -1 ∧
      ∀ p, p ∈ points →
        ∃ dp, FP.distSqr (FP.k_ t) p query = Ok dp ∧
              FP.ltb dp GREAT = false)).
Proof.
  intros HG Hfin Hq Hnew Hlen. destruct points as [|p0 points'].
  { destruct (FP_query_empty leafSize GREAT t query Hnew) as [-> _].
    exists (-1). split; [done|]. right.
    split; [done|]. intros p Hp. by apply elem_of_nil in Hp. }
  pose proof (FP_lengths leafSize _ t query Hfin Hnew Hlen) as Hlens.
  destruct (FP_query_nonempty leafSize GREAT (p0 :: points') t query)
    as (b & Himp & -> & _); [done..|].
  exists b.1. split; [done|].
  destruct (fimproved_all GREAT _ query b Himp)
    as (Hn & _ & Hall & [->|(Hlt & Hrange & p & Hp & Hd)]).
  { right. split; [done|]. intros p Hp.
    exists (sumSq p query). split.
    - rewrite Forall_forall in Hlens.
      apply FP_distSqr_Ok; [|done]. rewrite <- Hlen. f_equal. by apply Hlens.
    - apply ltb_false_rank; [|done|by apply Hall].
      apply sumSq_number; [|done].
      unfold finitePoints in Hfin. rewrite Forall_forall in Hfin.
      by apply Hfin. }
  left. split; [done|]. exists p, b.2.
  split; [by eapply list_elem_of_lookup_2|]. split.
  - rewrite <- Hd. apply FP_distSqr_Ok; [|done].
    rewrite <- Hlen. f_equal. apply (Forall_lookup_1 _ _ _ _ Hlens Hp).
  - by apply ltb_true_rank.
Qed.

Lemma nearest_index_or_sentinel_witness :
  ∃ t,
    FP.KDTree_new 1 [[1; 2]; [3; 4]; [0; 0]; [5; 1]] = Ok t ∧
    ∃ i,
      FP.nearest 1000 t [0; 1] = Ok i ∧
      ((0 ≤ i < Z.of_nat (length [[1; 2]; [3; 4]; [0; 0]; [5; 1]]) ∧
        ∃ p dp, p ∈ [[1; 2]; [3; 4]; [0; 0]; [5; 1]] ∧
                FP.distSqr (FP.k_ t) p [0; 1] = Ok dp ∧
                FP.ltb dp 1000 = true) ∨
       (i = -1 ∧
        ∀ p, p ∈ [[1; 2]; [3; 4]; [0; 0]; [5; 1]] →
          ∃ dp, FP.distSqr (FP.k_ t) p [0; 1] = Ok dp ∧
                FP.ltb dp 1000 = false)).
Proof.
  eexists. split; [vm_compute; reflexivity|].
  apply (nearest_index_or_sentinel 1 1000).
  - exact I.
  - repeat constructor.
  - repeat constructor.
  - vm_compute. reflexivity.
  - reflexivity.
Defined.







Lemma KDTree_new_replicate leafSize (n : nat) (p : list Z) :
  p ≠ [] → ∃ t, KDTree_new leafSize (replicate n p) = Ok t.
Proof.
  intros Hp. destruct n as [|n]; [by eexists|].
  pose proof (KDTree_new_cases leafSize (replicate (S n) p)) as Hc.
  destruct (KDTree_new leafSize (replicate (S n) p)) as [t|e]; [by exists t|].
  exfalso.
  assert (consistent (replicate (S n) p)) as Hcons.
  { apply Forall_forall. intros q Hq%elem_of_replicate. by destruct Hq as [-> _]. }
  destruct Hc as [[_ Hinc]|(_ & _ & _ & Hdim & _)]; [done|].
  simpl in Hdim. destruct p; [done | simpl in Hdim; lia].
Qed.

(** C5. [partitionIndices] terminates on every input: an iteration of
    its outer loop that goes on leaves an active range with at least one
    element less, on either side of [storeIdx], whatever the keys are, so
    that the loop never needs more iterations than the range has elements
    (the fuel of the model is never exhausted).  Consequently the
    construction on 10,000 identical points (of a dimension other than
    zero) returns an index. *)
Theorem partitionIndices_terminates :
  (∀ points indices left right axis indices' storeIdx,
     left < right →
     partitionStep points indices left right axis = Ok (indices', storeIdx) →
     (storeIdx - 1) - left < right - left ∧
     right - (storeIdx + 1) < right - left) ∧
  (∀ points indices start end_ axis k,
     partitionIndices points indices start end_ axis k ≠ Err OutOfFuel) ∧
  (∀ leafSize (p : list Z),
     p ≠ [] →
     ∃ t, KDTree_new leafSize (replicate (Z.to_nat 10000) p) = Ok t).
Proof.
  split; [|split].
  - intros points indices left right axis indices' storeIdx Hlt Hstep.
    apply partitionStep_shrinks in Hstep; lia.
  - intros points indices start end_ axis k Herr.
    apply (partitionLoop_fuel points axis k) in Herr; [done | lia].
  - intros leafSize p Hp. by apply KDTree_new_replicate.
Qed.

Lemma partitionIndices_terminates_witness :
  ∃ t, KDTree_new 10 (replicate (Z.to_nat 10000) [5; 5; 5]) = Ok t.
Proof.
  apply (proj2 (proj2 partitionIndices_terminates) 10 [5; 5; 5]). done.
Defined.

(** C6, as stated, fails: on the empty index ([k = 0]) a query of length
    3 raises nothing, both entry points return their sentinel before the
    length of the query is looked at. *)
Lemma empty_index_accepts_any_length :
  ∃ t,
    KDTree_new 2 [] = Ok t ∧
    Z.of_nat (length [1; 2; 3]) ≠ k_ t ∧
    nearest 1000 t [1; 2; 3] = Ok (-1) ∧
    nearestDistSqr 1000 t [1; 2; 3] = Ok 1000.
Proof.
  eexists. split; [vm_compute; reflexivity|]. vm_compute. done.
Qed.

(** C6, amended.  [DimensionMismatch] is raised exactly (a) by the
    construction, when some point's length differs from the first
    point's (no index is then returned), and (b) by [nearest] and
    [nearestDistSqr], when the index is not empty and the length of the
    query differs from [k]. *)
Theorem DimensionMismatch_iff leafSize GREAT points :
  (KDTree_new leafSize points = Err DimensionMismatch ↔
   ∃ p, p ∈ points ∧ Z.of_nat (length p) ≠ dimension points) ∧
  (∀ t (query : list Z),
     KDTree_new leafSize points = Ok t →
     (nearest GREAT t query = Err DimensionMismatch ↔
      points ≠ [] ∧ Z.of_nat (length query) ≠ k_ t) ∧
     (nearestDistSqr GREAT t query = Err DimensionMismatch ↔
      points ≠ [] ∧ Z.of_nat (length query) ≠ k_ t)).
Proof.
  assert (¬ consistent points ↔
          ∃ p, p ∈ points ∧ Z.of_nat (length p) ≠ dimension points)
    as Hcons.
  { unfold consistent. split.
    - intros Hex%not_Forall_Exists; [|apply _].
      apply Exists_exists in Hex as (p & Hp & Hne). eauto.
    - intros (p & Hp & Hne) Hall. rewrite Forall_forall in Hall.
      by apply Hne, Hall. }
  split.
  - pose proof (KDTree_new_cases leafSize points) as Hc.
    destruct (KDTree_new leafSize points) as [t|e].
    + destruct Hc as (_ & _ & Hc & _). split; [done|].
      intros Hex. by apply Hcons in Hex.
    + destruct Hc as [[-> Hinc]|(-> & Hc & _)].
      * split; [|done]. intros _. by apply Hcons.
      * split; [done|]. intros Hex. by apply Hcons in Hex.
  - intros t query Hnew.
    pose proof (valid_root leafSize points t Hnew) as Hvalid.
    destruct (decide (points = [])) as [->|Hne].
    { destruct (query_empty leafSize GREAT t query Hnew) as [-> ->].
      split; (split; [done | by intros [? _]]). }
    destruct (decide (Z.of_nat (length query) = k_ t)) as [Hq|Hq].
    { destruct (query_nonempty leafSize GREAT points t query Hnew Hne Hq)
        as (b & _ & -> & ->).
      split; (split; [done | by intros [_ ?]]). }
    apply Hvalid in Hne as Hv. unfold nearest, nearestDistSqr.
    rewrite Hv. simpl. rewrite !decide_True by done. done.
Qed.

Lemma DimensionMismatch_iff_witness :
  KDTree_new 2 [[1; 2; 3]; [4; 5; 6]; [7; 8]] = Err DimensionMismatch.
Proof.
  apply (DimensionMismatch_iff 2 1000 [[1; 2; 3]; [4; 5; 6]; [7; 8]]).
  exists [7; 8]. split; [|simpl; lia].
  apply list_elem_of_In. simpl. auto.
Defined.

(** C7. On the empty point set the construction returns an index with
    [k = 0]; on it, for a query of any length, [nearest] returns [-1] and
    [nearestDistSqr] returns [GREAT], and neither fails. *)
Theorem empty_index leafSize GREAT (query : list Z) :
  ∃ t,
    KDTree_new leafSize [] = Ok t ∧
    k_ t = 0 ∧
    nearest GREAT t query = Ok (-1) ∧
    nearestDistSqr GREAT t query = Ok GREAT.
Proof. eexists. split; [reflexivity|]. done. Qed.

(** C9. A candidate, leaf member or split point, replaces the current
    best exactly when its squared distance is strictly less than the
    current best squared distance.  The search is the sequence of these
    tests on the candidates of its trace, so that it ends on the first
    candidate of the trace at the least distance: every candidate tested
    before it is strictly farther, the ones tested after it are at least
    as far. *)
Theorem nearestSearch_first_found points k (query : list Z) :
  (∀ idx b d,
     candidateDist points k query idx = Ok d →
     candidate points k query idx b
     = Ok (if decide (d < b.2) then (idx, d) else b)) ∧
  (∀ n b b',
     nearestSearch points k n query b = Ok b' →
     ∃ T,
       nearestSearchTrace points k query n b = Ok (b', T) ∧
       scanLeaf points k query T b = Ok b' ∧
       first_best points k query T b b').
Proof.
  split.
  - intros idx b d Hd. rewrite candidate_dist, Hd. done.
  - intros n b b' Hsearch. rewrite nearestSearchTrace_erase in Hsearch.
    apply bind_Ok in Hsearch as ([b'' T] & Htrace & [= <-]).
    exists T. split; [done|].
    apply nearestSearchTrace_scan in Htrace as Hscan. split; [done|].
    by apply scanLeaf_first_best.
Qed.

Lemma nearestSearch_first_found_witness :
  ∃ T,
    nearestSearchTrace [[1; 1]; [1; 1]; [1; 1]; [1; 1]] 2 [1; 1]
      (node [] 0 0 (node [] 2 1 (node [1] (-1) (-1) null null) null)
         (node [3] (-1) (-1) null null))
      (-1, 1000) = Ok ((0, 0), T) ∧
    scanLeaf [[1; 1]; [1; 1]; [1; 1]; [1; 1]] 2 [1; 1] T (-1, 1000)
    = Ok (0, 0) ∧
    first_best [[1; 1]; [1; 1]; [1; 1]; [1; 1]] 2 [1; 1] T (-1, 1000) (0, 0).
Proof.
  apply (proj2 (nearestSearch_first_found
                  [[1; 1]; [1; 1]; [1; 1]; [1; 1]] 2 [1; 1])).
  vm_compute. reflexivity.
Defined.

(** C10. If the point set is not empty, every point has length zero
    (so that the construction takes [k = 0] and its check of the lengths
    passes) and there are more points than [leafSize_], the construction
    evaluates [depth % k_] with [k_ = 0]. *)
Theorem buildTree_modulo_zero leafSize (points : list (list Z)) :
  points ≠ [] →
  Forall (λ p, p = []) points →
  leafSize < Z.of_nat (length points) →
  KDTree_new leafSize points = Err ModuloByZero.
Proof.
  intros Hne Hnil Hbig.
  assert (dimension points = 0) as Hdim.
  { destruct points as [|p0 points']; [done|].
    apply Forall_cons in Hnil as [-> _]. done. }
  assert (consistent points) as Hcons.
  { unfold consistent. rewrite Hdim. eapply Forall_impl; [exact Hnil|].
    by intros p ->. }
  pose proof (KDTree_new_cases leafSize points) as Hc.
  destruct (KDTree_new leafSize points) as [t|e].
  - destruct Hc as (_ & _ & _ & [?|[?|?]] & _); [done | done | lia].
  - by destruct Hc as [[_ ?]|[-> _]].
Qed.

Lemma buildTree_modulo_zero_witness :
  KDTree_new 2 [[]; []; []] = Err ModuloByZero.
Proof.
  apply (buildTree_modulo_zero 2 [[]; []; []]).
  - done.
  - repeat constructor.
  - simpl. lia.
Defined.

(** * Further properties of the distance *)

Lemma get_Ok_lt {A} (l : list A) i x :
  get l i = Ok x → 0 ≤ i < Z.of_nat (length l).
Proof. intros [? ?%lookup_lt_Some]%get_Ok. lia. Qed.

Lemma distSqr_fails k a b : fails_in (eq OutOfRange) (distSqr k a b).
Proof.
  unfold distSqr. apply forLoop_fails. intros d s.
  apply fails_in_bind; [apply get_fails | intros x _].
  apply fails_in_bind; [apply get_fails | intros y _]. apply fails_in_Ok.
Qed.

(** A loop that returns has run its body, successfully, at every
    counter value. *)
Lemma forLoop_from_Ok_body {St} n lo (body : label → St → result St) s s' :
  forLoop_from n lo body s = Ok s' →
  ∀ i, lo ≤ i < lo + Z.of_nat n → ∃ si si', body i si = Ok si'.
Proof.
  revert lo s. induction n as [|n IH]; intros lo s Hloop i Hi; [lia|].
  simpl in Hloop. apply bind_Ok in Hloop as (s1 & Hbody & Hloop).
  destruct (decide (i = lo)) as [->|]; [eauto|].
  apply (IH (lo + 1) s1 Hloop). lia.
Qed.

(** [distSqr] looks at the first [k_] coordinates only. *)
Lemma distSqr_take k (a b : list Z) :
  k ≤ Z.of_nat (length a) → k ≤ Z.of_nat (length b) →
  distSqr k a b
  = Ok (sqDist (take (Z.to_nat k) a) (take (Z.to_nat k) b)).
Proof.
  intros Ha Hb. destruct (decide (k ≤ 0)) as [Hk|Hk].
  { unfold distSqr, forLoop.
    replace (Z.to_nat (k - 0)) with 0%nat by lia.
    by replace (Z.to_nat k) with 0%nat by lia. }
  unfold distSqr.
  destruct (forLoop_inv
    (λ d sum, sum = sqDist (take (Z.to_nat d) a) (take (Z.to_nat d) b))
    0 k
    (λ d sum,
       x ← get a d; y ← get b d; let diff := x - y in Ok (sum + diff * diff))
    0) as (s & Hloop & Hs).
  - lia.
  - done.
  - intros d sum Hd ->.
    destruct (get_in_range a d) as [x Hx]; [lia|].
    destruct (get_in_range b d) as [y Hy]; [lia|].
    rewrite Hx, Hy. simpl. eexists. split; [done|].
    apply get_Ok in Hx as [_ Hx]. apply get_Ok in Hy as [_ Hy].
    replace (Z.to_nat (d + 1)) with (S (Z.to_nat d)) by lia.
    rewrite (take_S_r a _ x), (take_S_r b _ y) by done.
    rewrite sqDist_snoc; [done|]. rewrite !length_take. lia.
  - etrans; [exact Hloop|]. by rewrite Hs.
Qed.

(** X2. [distSqr] reads the coordinates [0 .. k_-1] of both vectors and
    nothing else: when both have at least [k_] coordinates it returns the
    squared distance of their prefixes of length [k_], whatever follows;
    when [k_] is positive and one of them is shorter, it reads out of
    range. *)
Theorem distSqr_bounds k (a b : list Z) :
  (k ≤ Z.of_nat (length a) → k ≤ Z.of_nat (length b) →
   distSqr k a b
   = Ok (sqDist (take (Z.to_nat k) a) (take (Z.to_nat k) b))) ∧
  (Z.of_nat (length a) < k ∨ Z.of_nat (length b) < k →
   distSqr k a b = Err OutOfRange).
Proof.
  split; [apply distSqr_take|]. intros Hshort.
  destruct (distSqr k a b) as [d|e] eqn:Hd.
  - exfalso. unfold distSqr, forLoop in Hd.
    set (m := Z.min (Z.of_nat (length a)) (Z.of_nat (length b))).
    destruct (forLoop_from_Ok_body _ _ _ _ _ Hd m) as (si & si' & Hbody);
      [lia|].
    apply bind_Ok in Hbody as (x & Hx%get_Ok_lt & Hbody).
    apply bind_Ok in Hbody as (y & Hy%get_Ok_lt & _). lia.
  - f_equal. symmetry. by apply (distSqr_fails k a b).
Qed.

Lemma distSqr_bounds_witness :
  distSqr 2 [3; 4; 100] [0; 0] = Ok (sqDist [3; 4] [0; 0]) ∧
  distSqr 3 [3; 4; 100] [0; 0] = Err OutOfRange.
Proof.
  split.
  - apply (proj1 (distSqr_bounds 2 [3; 4; 100] [0; 0])); simpl; lia.
  - apply (proj2 (distSqr_bounds 3 [3; 4; 100] [0; 0])). simpl. lia.
Defined.

(** * Point sets that fit in one leaf *)

(** Scanning the leaf [i, i+1, ...] is the exhaustive scan of the test
    application, errors included. *)
Lemma scanLeaf_seqZ_bruteLoop points (query : list Z) : ∀ pts i st,
  0 ≤ i → drop (Z.to_nat i) points = pts →
  scanLeaf points (Z.of_nat (length query)) query
    (seqZ i (Z.of_nat (length pts))) st
  = bruteLoop pts i query st.
Proof.
  intros pts. induction pts as [|p pts IH]; intros i st Hi Hdrop; [done|].
  assert (points !! Z.to_nat i = Some p) as Hp.
  { rewrite <- (Nat.add_0_r (Z.to_nat i)), <- lookup_drop. by rewrite Hdrop. }
  rewrite seqZ_cons by (simpl; lia).
  replace (Z.pred (Z.of_nat (length (p :: pts))))
    with (Z.of_nat (length pts)) by (simpl; lia).
  cbn [scanLeaf bruteLoop]. unfold candidate.
  rewrite (proj2 (get_Ok points i p)) by done. cbn [mbind result_bind].
  change (forLoop 0 (Z.of_nat (length query)) _ 0)
    with (distSqr (Z.of_nat (length query)) p query).
  destruct (distSqr (Z.of_nat (length query)) p query) as [d2|e]; [|done].
  cbn [mbind result_bind].
  assert (drop (Z.to_nat (Z.succ i)) points = pts) as Hdrop'.
  { replace (Z.to_nat (Z.succ i)) with (S (Z.to_nat i)) by lia.
    erewrite drop_S in Hdrop by done. by injection Hdrop. }
  destruct (decide (d2 < st.2)); cbn [mbind result_bind];
    by rewrite (IH (Z.succ i)) by (done || lia).
Qed.

Lemma buildTree_leaf leafSize points k fuel (indices : list Z)
    start end_ depth :
  0 ≤ start → 0 < end_ - start → end_ - start ≤ leafSize →
  end_ ≤ Z.of_nat (length indices) →
  buildTree leafSize points k (S fuel) indices start end_ depth
  = Ok (indices, leafNode (slice start end_ indices)).
Proof.
  intros H0 Hpos Hsmall Hend. cbn [buildTree].
  rewrite decide_False by lia. rewrite decide_True by lia.
  rewrite leafCopy_spec by lia. done.
Qed.

Lemma KDTree_new_leaf leafSize (points : list (list Z)) :
  points ≠ [] → consistent points →
  Z.of_nat (length points) ≤ leafSize →
  KDTree_new leafSize points
  = Ok (mkKDTree (leafNode (seqZ 0 (Z.of_nat (length points))))
          points (dimension points)).
Proof.
  intros Hne Hcons Hsmall. unfold KDTree_new.
  destruct points as [|p0 points']; [done|].
  change (Z.of_nat (length p0)) with (dimension (p0 :: points')).
  set (points := p0 :: points') in *.
  rewrite checkDimensions_spec. fold (consistent points).
  rewrite decide_True by done. cbn [mbind result_bind].
  rewrite length_seqZ, Nat2Z.id.
  assert (0 < Z.of_nat (length points)) by (unfold points; simpl; lia).
  rewrite buildTree_leaf by (rewrite ?length_seqZ; lia).
  cbn [mbind result_bind]. do 3 f_equal.
  rewrite <- (slice_full (seqZ 0 (Z.of_nat (length points)))) at 2.
  by rewrite length_seqZ, Nat2Z.id.
Qed.

(** X3. A non-empty point set of consistent lengths with at most
    [leafSize_] points is indexed by a single leaf holding the indices
    [0 .. n-1] in order, and on it a query of length [k] is the
    exhaustive scan: [nearest] and [nearestDistSqr] return the index and
    the distance [bruteNearest] returns. *)
Theorem small_set_single_leaf leafSize GREAT (points : list (list Z)) :
  points ≠ [] → consistent points →
  Z.of_nat (length points) ≤ leafSize →
  ∃ t,
    KDTree_new leafSize points = Ok t ∧
    root_ t = leafNode (seqZ 0 (Z.of_nat (length points))) ∧
    ∀ query : list Z,
      Z.of_nat (length query) = k_ t →
      ∃ b,
        bruteNearest GREAT points query = Ok b ∧
        nearest GREAT t query = Ok b.1 ∧
        nearestDistSqr GREAT t query = Ok b.2.
Proof.
  intros Hne Hcons Hsmall. eexists.
  split; [by apply KDTree_new_leaf|]. split; [done|].
  intros query Hq. cbn [k_] in Hq.
  assert (Forall (λ p, length p = length query) points) as Hlen.
  { eapply Forall_impl; [exact Hcons|]. intros p Hp. simpl in Hp. lia. }
  destruct (bruteNearest_spec GREAT points query Hlen) as (b & Hbrute & _).
  exists b. split; [done|].
  unfold nearest, nearestDistSqr, search.
  cbn [root_ points_ k_ valid leafNode negb].
  rewrite !decide_False by (intros Hneq; by apply Hneq).
  unfold leafNode. cbn [nearestSearch].
  assert (seqZ 0 (Z.of_nat (length points)) ≠ []) as Hseq.
  { intros Hnil%(f_equal length). rewrite length_seqZ in Hnil.
    destruct points; [done | simpl in Hnil; lia]. }
  rewrite decide_True by done. rewrite <- Hq.
  rewrite (scanLeaf_seqZ_bruteLoop points query points 0) by done.
  unfold bruteNearest in Hbrute. rewrite Hbrute. done.
Qed.

Lemma small_set_single_leaf_witness :
  ∃ t,
    KDTree_new 4 [[1; 2]; [3; 4]; [0; 0]] = Ok t ∧
    root_ t = leafNode (seqZ 0 (Z.of_nat (length [[1; 2]; [3; 4]; [0; 0]]))) ∧
    ∀ query : list Z,
      Z.of_nat (length query) = k_ t →
      ∃ b,
        bruteNearest 1000 [[1; 2]; [3; 4]; [0; 0]] query = Ok b ∧
        nearest 1000 t query = Ok b.1 ∧
        nearestDistSqr 1000 t query = Ok b.2.
Proof.
  apply (small_set_single_leaf 4 1000 [[1; 2]; [3; 4]; [0; 0]]).
  - done.
  - repeat constructor.
  - simpl. lia.
Defined.

(** * The height of the tree *)

Lemma log2_half c :
  1 ≤ Z.quot c 2 → Z.log2 (Z.quot c 2) + 1 ≤ Z.log2 c.
Proof.
  intros Hh. assert (0 < c) as Hc.
  { destruct (decide (0 < c)); [done|].
    assert (Z.quot c 2 ≤ 0); [|lia].
    apply Z.quot_le_upper_bound; lia. }
  rewrite Z.quot_div_nonneg in * by lia.
  assert (2 * (c `div` 2) ≤ c) by (apply Z.mul_div_le; lia).
  etrans; [|apply Z.log2_le_mono; eassumption].
  rewrite Z.log2_double by lia. lia.
Qed.

Lemma height_nonneg t : 0 ≤ height t.
Proof. induction t; simpl; lia. Qed.

Lemma buildTree_height leafSize points k fuel :
  ∀ (indices : list Z) start end_ depth indices' t,
    buildTree leafSize points k fuel indices start end_ depth
    = Ok (indices', t) →
    (end_ - start ≤ 0 → t = null) ∧
    (0 < end_ - start → 1 ≤ height t ≤ Z.log2 (end_ - start) + 1).
Proof.
  induction fuel as [|fuel IH]; intros indices start end_ depth indices' t Hb;
    [done|].
  cbn [buildTree] in Hb.
  destruct (decide (end_ - start ≤ 0)) as [Hz|Hpos].
  { injection Hb as _ <-. split; [done | lia]. }
  split; [lia|]. intros _.
  pose proof (Z.log2_nonneg (end_ - start)) as Hlog.
  destruct (decide (end_ - start ≤ leafSize)).
  { apply bind_Ok in Hb as (leafInds & _ & [= _ <-]). simpl. lia. }
  destruct (decide (k = 0)); [done|].
  apply bind_Ok in Hb as (indices1 & _ & Hb).
  apply bind_Ok in Hb as (idx & _ & Hb).
  apply bind_Ok in Hb as ([indices2 l] & Hl & Hb).
  apply bind_Ok in Hb as ([indices3 r] & Hr & [= _ <-]).
  apply IH in Hl as [Hl0 Hl1]. apply IH in Hr as [Hr0 Hr1].
  pose proof (quot2_half (end_ - start) ltac:(lia)) as Hhalf.
  set (h := Z.quot (end_ - start) 2) in *.
  assert (2 * h ≤ end_ - start ∧ end_ - start - 1 ≤ 2 * h) as [Hh1 Hh2].
  { unfold h. rewrite Z.quot_div_nonneg by lia.
    pose proof (Z.mul_div_le (end_ - start) 2 ltac:(lia)).
    pose proof (Z.mul_succ_div_gt (end_ - start) 2 ltac:(lia)). lia. }
  cbn [height internalNode].
  assert (height l ≤ Z.log2 (end_ - start)) as Hhl.
  { destruct (decide (start + h - start ≤ 0)) as [Hn|Hn].
    - rewrite (Hl0 Hn). simpl. lia.
    - destruct Hl1 as [_ Hl1]; [lia|].
      replace (start + h - start) with h in Hl1 by lia.
      pose proof (log2_half (end_ - start) ltac:(fold h; lia)). fold h in H.
      lia. }
  assert (height r ≤ Z.log2 (end_ - start)) as Hhr.
  { destruct (decide (end_ - (start + h + 1) ≤ 0)) as [Hn|Hn].
    - rewrite (Hr0 Hn). simpl. lia.
    - destruct Hr1 as [_ Hr1]; [lia|].
      pose proof (Z.log2_le_mono (end_ - (start + h + 1)) h ltac:(lia)).
      pose proof (log2_half (end_ - start) ltac:(fold h; lia)). fold h in H0.
      lia. }
  pose proof (height_nonneg l). pose proof (height_nonneg r). lia.
Qed.

(** X4. The tree of an index over [n] points has at most
    [log2 n + 1] levels (and at least one when [n > 0]): the median split
    of [buildTree] halves the range at every level, whatever the keys and
    whatever [leafSize_]. *)
Theorem tree_height_bound leafSize (points : list (list Z)) t :
  KDTree_new leafSize points = Ok t →
  height (root_ t) ≤ Z.log2 (Z.of_nat (length points)) + 1 ∧
  (points ≠ [] → 1 ≤ height (root_ t)).
Proof.
  intros Hnew. unfold KDTree_new in Hnew.
  destruct points as [|p0 points'].
  { injection Hnew as <-. simpl. split; [lia | done]. }
  apply bind_Ok in Hnew as (_ & _ & Hnew).
  apply bind_Ok in Hnew as ([indices' root] & Hbuild & [= <-]).
  apply buildTree_height in Hbuild as [_ Hh]. cbn [root_].
  rewrite length_seqZ, Nat2Z.id, Z.sub_0_r in Hh.
  destruct Hh as [? ?]; [simpl; lia|]. done.
Qed.

Lemma tree_height_bound_witness :
  ∃ t,
    KDTree_new 1 [[1; 2]; [3; 4]; [0; 0]; [5; 1]; [2; 2]; [7; 7]; [1; 1]]
    = Ok t ∧
    height (root_ t)
    ≤ Z.log2 (Z.of_nat (length
        [[1; 2]; [3; 4]; [0; 0]; [5; 1]; [2; 2]; [7; 7]; [1; 1]])) + 1 ∧
    ([[1; 2]; [3; 4]; [0; 0]; [5; 1]; [2; 2]; [7; 7]; [1; 1]] ≠ [] →
     1 ≤ height (root_ t)).
Proof.
  eexists. split; [vm_compute; reflexivity|].
  apply (tree_height_bound 1). vm_compute. reflexivity.
Defined.

(** * Outcomes of the construction and of the queries *)

Lemma query_mismatch leafSize GREAT points t (query : list Z) :
  KDTree_new leafSize points = Ok t →
  points ≠ [] → Z.of_nat (length query) ≠ k_ t →
  nearest GREAT t query = Err DimensionMismatch ∧
  nearestDistSqr GREAT t query = Err DimensionMismatch.
Proof.
  intros Hnew Hne Hq. apply (valid_root leafSize points t Hnew) in Hne.
  unfold nearest, nearestDistSqr. rewrite Hne. simpl.
  by rewrite !decide_True by done.
Qed.

(** X5. The construction returns an index exactly when all points have
    the length of the first one and, unless the set is empty, that length
    is not zero or the points fit in one leaf.  The index it returns
    keeps the points and takes [k] from the first point, and its root is
    null exactly for the empty set.  Otherwise the construction raises
    [DimensionMismatch] or takes a remainder modulo zero: it never reads
    an array out of range. *)
Theorem KDTree_new_outcome leafSize (points : list (list Z)) :
  ((∃ t, KDTree_new leafSize points = Ok t) ↔
   consistent points ∧
   (points = [] ∨ dimension points ≠ 0 ∨
    Z.of_nat (length points) ≤ leafSize)) ∧
  (∀ t,
     KDTree_new leafSize points = Ok t →
     points_ t = points ∧ k_ t = dimension points ∧
     (root_ t = null ↔ points = [])) ∧
  (∀ e,
     KDTree_new leafSize points = Err e →
     e = DimensionMismatch ∨ e = ModuloByZero).
Proof.
  pose proof (KDTree_new_cases leafSize points) as Hc.
  destruct (KDTree_new leafSize points) as [t|e].
  - destruct Hc as (Hpts & Hk & Hcons & Hfit & _ & _ & Hvalid).
    split; [split; [done | eauto]|]. split; [|done].
    intros t' [= <-]. split; [done|]. split; [done|].
    destruct (root_ t); simpl in Hvalid.
    + split; [intros _ | done].
      destruct (decide (points = [])) as [|Hne]; [done|].
      by apply Hvalid in Hne.
    + split; [done|]. intros ->. destruct Hvalid as [Hv _].
      by specialize (Hv eq_refl).
  - split; [|split; [done|]].
    + split; [by intros [t [=]]|]. intros [Hcons Hfit]. exfalso.
      destruct Hc as [[_ Hinc]|(_ & _ & Hne & Hdim & Hbig)]; [done|].
      destruct Hfit as [?|[?|?]]; [done | done | lia].
    + intros e' [= <-]. destruct Hc as [[-> _]|[-> _]]; [by left | by right].
Qed.

Lemma KDTree_new_outcome_witness :
  ∃ t, KDTree_new 1 [[1; 2]; [3; 4]; [0; 0]] = Ok t.
Proof.
  apply (proj1 (KDTree_new_outcome 1 [[1; 2]; [3; 4]; [0; 0]])).
  split; [repeat constructor|]. right. left. simpl. lia.
Defined.

(** X6. On an index the construction has returned, a query never reads
    out of range.  Either the index is not empty and the query has not
    the length [k], and both entry points raise [DimensionMismatch]; or
    both return: the index is [-1] or a position of the point sequence,
    the distance is at most [GREAT] (and not negative when [GREAT] is
    not), and the index is [-1] exactly when the distance is [GREAT]. *)
Theorem query_outcome leafSize GREAT points t (query : list Z) :
  KDTree_new leafSize points = Ok t →
  (points ≠ [] ∧ Z.of_nat (length query) ≠ k_ t ∧
   nearest GREAT t query = Err DimensionMismatch ∧
   nearestDistSqr GREAT t query = Err DimensionMismatch) ∨
  (∃ i d,
     nearest GREAT t query = Ok i ∧
     nearestDistSqr GREAT t query = Ok d ∧
     -1 ≤ i < Z.of_nat (length points) ∧
     d ≤ GREAT ∧ (0 ≤ GREAT → 0 ≤ d) ∧
     (i = -1 ↔ d = GREAT)).
Proof.
  intros Hnew. destruct (decide (points = [])) as [->|Hne].
  { right. destruct (query_empty leafSize GREAT t query Hnew) as [-> ->].
    exists (-1), GREAT. simpl. repeat split; (done || lia). }
  destruct (decide (Z.of_nat (length query) = k_ t)) as [Hq|Hq].
  2:{ left. split; [done|]. split; [done|]. by eapply query_mismatch. }
  right.
  destruct (query_nonempty leafSize GREAT points t query Hnew Hne Hq)
    as (b & Himp & -> & ->).
  exists b.1, b.2. split; [done|]. split; [done|].
  destruct (improved_all GREAT points query b Himp)
    as (Hle & _ & [->|(Hlt & Hrange & p & _ & Hd)]).
  - simpl in *. repeat split; (done || lia).
  - pose proof (sqDist_nonneg p query). repeat split; lia.
Qed.

Lemma query_outcome_witness :
  ∃ t,
    KDTree_new 1 [[1; 2]; [3; 4]; [0; 0]] = Ok t ∧
    (([[1; 2]; [3; 4]; [0; 0]] ≠ [] ∧ Z.of_nat (length [7]) ≠ k_ t ∧
      nearest 1000 t [7] = Err DimensionMismatch ∧
      nearestDistSqr 1000 t [7] = Err DimensionMismatch) ∨
     (∃ i d,
        nearest 1000 t [7] = Ok i ∧
        nearestDistSqr 1000 t [7] = Ok d ∧
        -1 ≤ i < Z.of_nat (length [[1; 2]; [3; 4]; [0; 0]]) ∧
        d ≤ 1000 ∧ (0 ≤ 1000 → 0 ≤ d) ∧
        (i = -1 ↔ d = 1000))).
Proof.
  eexists. split; [vm_compute; reflexivity|].
  apply (query_outcome 1 1000 [[1; 2]; [3; 4]; [0; 0]]).
  vm_compute. reflexivity.
Defined.

(** X8. On finite coordinates, what [nearestDistSqr] returns depends on
    the points only as a collection: two indices built, with any leaf
    sizes, over the same points in any order return the same number on
    every query of length [k]. *)
Theorem nearestDistSqr_depends_on_points_only {F : Type} `{ScalarLaws F}
    leafSize1 leafSize2 (GREAT : F) points1 points2 t1 t2 query :
  is_number GREAT → finitePoints points1 → Forall is_finite query →
  FP.KDTree_new leafSize1 points1 = Ok t1 →
  FP.KDTree_new leafSize2 points2 = Ok t2 →
  points1 ≡ₚ points2 →
  Z.of_nat (length query) = FP.k_ t1 →
  ∃ d1 d2,
    FP.nearestDistSqr GREAT t1 query = Ok d1 ∧
    FP.nearestDistSqr GREAT t2 query = Ok d2 ∧
    sameValue d1 d2.
Proof.
  intros HG Hfin1 Hq Hnew1 Hnew2 Hperm Hlen1.
  assert (finitePoints points2) as Hfin2.
  { unfold finitePoints. by rewrite <- Hperm. }
  assert (FP.k_ t2 = FP.k_ t1) as Hk.
  { destruct (FP_KDTree_new_spec _ _ _ Hfin1 Hnew1) as (_ & Hd1 & _).
    destruct (FP_KDTree_new_spec _ _ _ Hfin2 Hnew2) as (_ & Hd2 & _).
    destruct points1 as [|p0 points1'].
    - apply Permutation_nil_l in Hperm. subst.
      injection Hnew1 as <-. by injection Hnew2 as <-.
    - rewrite <- Hperm in Hd2.
      apply Forall_cons in Hd1 as [Hp1 _]. apply Forall_cons in Hd2 as [Hp2 _].
      lia. }
  assert (∀ leafSize points t,
    finitePoints points → FP.KDTree_new leafSize points = Ok t →
    Z.of_nat (length query) = FP.k_ t →
    ∃ b, fimproved points query (seqZ 0 (Z.of_nat (length points)))
           (-1, GREAT) b ∧
         FP.nearestDistSqr GREAT t query = Ok b.2) as Hres.
  { intros leafSize points t Hfin Hnew Hlen. destruct points as [|p0 points'].
    - exists (-1, GREAT). split; [by apply fimproved_nil|].
      by destruct (FP_query_empty leafSize GREAT t query Hnew) as [_ ->].
    - destruct (FP_query_nonempty leafSize GREAT (p0 :: points') t query)
        as (b & Himp & _ & Hkd); [done..|]. by exists b. }
  destruct (Hres _ _ _ Hfin1 Hnew1 Hlen1) as (b1 & Himp1 & Hkd1).
  destruct (Hres _ _ _ Hfin2 Hnew2) as (b2 & Himp2 & Hkd2); [lia|].
  exists b1.2, b2.2. split; [done|]. split; [done|].
  destruct (fimproved_all GREAT points1 query b1 Himp1)
    as (Hn1 & Hle1 & Hall1 & Hch1).
  destruct (fimproved_all GREAT points2 query b2 Himp2)
    as (Hn2 & Hle2 & Hall2 & Hch2).
  assert (rank b1.2 = rank b2.2) as Hsame.
  { destruct Hch1 as [->|(Hlt1 & _ & p1 & Hp1 & Hd1)],
      Hch2 as [->|(Hlt2 & _ & p2 & Hp2 & Hd2)]; simpl in *.
    - done.
    - apply list_elem_of_lookup_2 in Hp2. rewrite <- Hperm in Hp2.
      specialize (Hall1 p2 Hp2). rewrite Hd2 in Hall1. lia.
    - apply list_elem_of_lookup_2 in Hp1. rewrite Hperm in Hp1.
      specialize (Hall2 p1 Hp1). rewrite Hd1 in Hall2. lia.
    - apply list_elem_of_lookup_2 in Hp1, Hp2.
      rewrite Hperm in Hp1. rewrite <- Hperm in Hp2.
      specialize (Hall1 p2 Hp2). specialize (Hall2 p1 Hp1).
      rewrite Hd2 in Hall1. rewrite Hd1 in Hall2. lia. }
  split; apply ltb_false_rank; (done || lia).
Qed.

Lemma nearestDistSqr_depends_on_points_only_witness :
  ∃ t1 t2,
    FP.KDTree_new 1 [[1; 2]; [3; 4]; [0; 0]; [5; 1]; [2; 2]] = Ok t1 ∧
    FP.KDTree_new 3 [[3; 4]; [1; 2]; [0; 0]; [5; 1]; [2; 2]] = Ok t2 ∧
    ∃ d1 d2,
      FP.nearestDistSqr 1000 t1 [4; 2] = Ok d1 ∧
      FP.nearestDistSqr 1000 t2 [4; 2] = Ok d2 ∧
      sameValue d1 d2.
Proof.
  eexists _, _. split; [vm_compute; reflexivity|].
  split; [vm_compute; reflexivity|].
  apply (nearestDistSqr_depends_on_points_only 1 3 1000
           [[1; 2]; [3; 4]; [0; 0]; [5; 1]; [2; 2]]
           [[3; 4]; [1; 2]; [0; 0]; [5; 1]; [2; 2]]).
  - exact I.
  - repeat constructor.
  - repeat constructor.
  - vm_compute. reflexivity.
  - vm_compute. reflexivity.
  - apply perm_swap.
  - reflexivity.
Defined.

(** * How many candidates a search tests *)

Lemma nearestSearchTrace_submseteq points k (query : list Z) (n : Node) :
  ∀ b b' T,
    nearestSearchTrace points k query n b = Ok (b', T) →
    T ⊆+ treeIndices n.
Proof.
  induction n as [|leaf p ax l IHl r IHr]; intros b b' T Htrace.
  { by injection Htrace as <- <-. }
  cbn [nearestSearchTrace treeIndices] in *.
  destruct (decide (leaf ≠ [])).
  { by apply bind_Ok in Htrace as (b1 & Hscan & [= <- <-]). }
  apply bind_Ok in Htrace as (b1 & Hcand & Htrace).
  apply bind_Ok in Htrace as (qa & _ & Htrace).
  apply bind_Ok in Htrace as (pt & _ & Htrace).
  apply bind_Ok in Htrace as (pa & _ & Htrace).
  apply bind_Ok in Htrace as ([b2 T1] & Hnear & Htrace).
  apply bind_Ok in Htrace as ([b3 T2] & Hfar & [= <- <-]).
  assert (∀ (t : Node) bi bo To,
    (∀ b b' T, nearestSearchTrace points k query t b = Ok (b', T) →
               T ⊆+ treeIndices t) →
    (if valid t then nearestSearchTrace points k query t bi
     else Ok (bi, [])) = Ok (bo, To) →
    To ⊆+ treeIndices t) as Hguard.
  { intros t bi bo To IH Ht. destruct (valid t); [by eapply IH|].
    injection Ht as <- <-. apply submseteq_nil_l. }
  assert (∀ (t : Node) (c : bool) bi bo To,
    (∀ b b' T, nearestSearchTrace points k query t b = Ok (b', T) →
               T ⊆+ treeIndices t) →
    (if valid t then
       if c then nearestSearchTrace points k query t bi else Ok (bi, [])
     else Ok (bi, [])) = Ok (bo, To) →
    To ⊆+ treeIndices t) as Hguard2.
  { intros t c bi bo To IH Ht. destruct (valid t), c;
      first [by eapply IH | injection Ht as <- <-; apply submseteq_nil_l]. }
  apply submseteq_skip.
  destruct (decide (qa - pa < 0)).
  - apply submseteq_app; [by eapply Hguard|].
    destruct (decide (_ < b2.2)).
    + by eapply (Hguard2 r true).
    + by eapply (Hguard2 r false).
  - rewrite (Permutation_app_comm (treeIndices l)).
    apply submseteq_app; [by eapply Hguard|].
    destruct (decide (_ < b2.2)).
    + by eapply (Hguard2 l true).
    + by eapply (Hguard2 l false).
Qed.

(** X9. A search tests every candidate at most once: the candidates it
    tests, in the order of the tests, are distinct indices of the point
    sequence, so that a query computes at most [n] distances. *)
Theorem search_tests_each_point_once leafSize GREAT points t
    (query : list Z) b' :
  KDTree_new leafSize points = Ok t →
  search GREAT t query = Ok b' →
  ∃ T,
    nearestSearchTrace (points_ t) (k_ t) query (root_ t) (-1, GREAT)
    = Ok (b', T) ∧
    NoDup T ∧
    (∀ c, c ∈ T → 0 ≤ c < Z.of_nat (length points)) ∧
    Z.of_nat (length T) ≤ Z.of_nat (length points).
Proof.
  intros Hnew Hsearch. unfold search in Hsearch.
  rewrite nearestSearchTrace_erase in Hsearch.
  apply bind_Ok in Hsearch as ([b'' T] & Htrace & [= <-]).
  exists T. split; [done|].
  pose proof (KDTree_new_cases leafSize points) as Hc. rewrite Hnew in Hc.
  destruct Hc as (_ & _ & _ & _ & _ & Hidx & _).
  apply nearestSearchTrace_submseteq in Htrace. rewrite Hidx in Htrace.
  split; [|split].
  - destruct (submseteq_Permutation _ _ Htrace) as [rest Hrest].
    pose proof (NoDup_seqZ 0 (Z.of_nat (length points))) as Hnd.
    rewrite Hrest in Hnd. by apply NoDup_app in Hnd as (? & _).
  - intros c Hc. eapply elem_of_submseteq in Hc; [|done].
    apply elem_of_seqZ in Hc. lia.
  - apply submseteq_length in Htrace. rewrite length_seqZ in Htrace. lia.
Qed.

Lemma search_tests_each_point_once_witness :
  ∃ t T,
    KDTree_new 1 [[1; 2]; [3; 4]; [0; 0]; [5; 1]; [2; 2]] = Ok t ∧
    nearestSearchTrace (points_ t) (k_ t) [4; 2] (root_ t) (-1, 1000)
    = Ok ((3, 2), T) ∧
    NoDup T ∧
    (∀ c, c ∈ T →
       0 ≤ c < Z.of_nat (length [[1; 2]; [3; 4]; [0; 0]; [5; 1]; [2; 2]])) ∧
    Z.of_nat (length T)
    ≤ Z.of_nat (length [[1; 2]; [3; 4]; [0; 0]; [5; 1]; [2; 2]]).
Proof.
  eexists. 
  assert (KDTree_new 1 [[1; 2]; [3; 4]; [0; 0]; [5; 1]; [2; 2]] = Ok ?[t])
    as Hnew by (vm_compute; reflexivity).
  destruct (search_tests_each_point_once 1 1000 _ _ [4; 2] (3, 2) Hnew)
    as (T & HT); [vm_compute; reflexivity|].
  exists T. split; [exact Hnew | exact HT].
Defined.

(** * The index the exhaustive scan returns *)




(** * Identical points *)


